(** * The plugin manager of the low-code engine

    A shallow embedding of [packages/designer/src/plugin/plugin-manager.ts]
    (class [LowCodePluginManager]) together with the two collaborators it
    drives: the plugin unit ([LowCodePlugin]) and the dependency sequencer
    ([sequencify]).

    JavaScript objects have identity and the manager keeps every unit in two
    containers at once (the [plugins] array and the [pluginsMap] map), so the
    units live in a store and both containers hold references into it.
    Asynchronous methods are run to completion one after the other; a promise
    that rejects is an outcome [Rejected], a promise that fulfils is
    [Resolved]. *)

From stdpp Require Import gmap strings list fin_maps.

Open Scope string_scope.
Open Scope list_scope.

(** ** Plugin-side data *)

(** What a lifecycle hook of a plugin configuration does when it is called:
    the promise it returns fulfils, or it throws / its promise rejects.  Plugin
    code sees the manager only through its context and read-restricted
    proxies; a hook is taken not to reach into the registry. *)
Inductive HookResult := HookResolves | HookRejects.

(** Modelled from the spec: the declarations of [./plugin-types] are not
    among the sources.  [ILowCodePluginConfig] is the object a plugin factory
    returns, "with optional lifecycle hooks"; only the members the manager and
    the unit look at are kept: the legacy [name] and the two hooks. *)
Record ILowCodePluginConfig := {
  cfg_name : option string;
  cfg_init : option HookResult;
  cfg_destroy : option HookResult;
}.

(** Modelled from the spec: [ILowCodePluginConfigMeta], the declarative
    metadata; kept are [meta.engines.lowcodeEngine] and the dependency list. *)
Record ILowCodePluginConfigMeta := {
  engines_lowcodeEngine : option string;
  dependencies : list string;
}.

(** [meta = {}], the default of the destructuring in [register]. *)
Definition empty_meta : ILowCodePluginConfigMeta :=
  {| engines_lowcodeEngine := None; dependencies := [] |}.

(** The factory function object handed to [register]: its static
    [pluginName] and [meta] properties and the configuration it returns when
    it is called with the context. *)
Record PluginConfigCreator := {
  creator_pluginName : option string;
  creator_meta : option ILowCodePluginConfigMeta;
  creator_config : ILowCodePluginConfig;
}.

(** Modelled from the spec: [ILowCodeRegisterOptions], whose recognized
    options are [override] and [autoInit]; it is also the shape in which the
    second argument [options] is inspected.  A key is absent ([None]) or holds
    a boolean. *)
Record ILowCodeRegisterOptions := {
  autoInit : option bool;
  override : option bool;
}.

(** Modelled from the spec: [isLowCodeRegisterOptions] of [./plugin-types] is
    not among the sources.  As the comment at its call in [register] says, the
    argument counts as register options when it has an [autoInit] or an
    [override] key. *)
Definition isLowCodeRegisterOptions (options : option ILowCodeRegisterOptions) : bool :=
  match options with
  | Some o => bool_decide (is_Some (autoInit o)) || bool_decide (is_Some (override o))
  | None => false
  end.

(** JavaScript truthiness of a value that is [undefined] or a string. *)
Definition truthy (v : option string) : bool :=
  match v with
  | Some s => negb (String.eqb s "")
  | None => false
  end.

(** State machine of a unit: [registered -> initialized], [destroyed] is
    terminal. *)
Inductive Lifecycle := Registered | Initialized | Destroyed.

(** Modelled from the spec: the class [LowCodePlugin] of [./plugin] is not
    among the sources.  A unit has a [name], the wrapped [config], its
    [meta], the [disabled] flag (default false) and its place in the
    lifecycle. *)
Record LowCodePlugin := {
  name : string;
  config : ILowCodePluginConfig;
  meta : ILowCodePluginConfigMeta;
  disabled : bool;
  lifecycle : Lifecycle;
}.

(** Modelled from the spec: [new LowCodePlugin(pluginName, manager, config,
    meta)]; a unit is created registered and not disabled. *)
Definition new_LowCodePlugin (n : string) (c : ILowCodePluginConfig)
    (m : ILowCodePluginConfigMeta) : LowCodePlugin :=
  {| name := n; config := c; meta := m; disabled := false; lifecycle := Registered |}.

Definition set_lifecycle (l : Lifecycle) (p : LowCodePlugin) : LowCodePlugin :=
  {| name := name p; config := config p; meta := meta p;
     disabled := disabled p; lifecycle := l |}.

Definition set_disabled (flag : bool) (p : LowCodePlugin) : LowCodePlugin :=
  {| name := name p; config := config p; meta := meta p;
     disabled := flag; lifecycle := lifecycle p |}.

(** ** The store, the manager's fields and the observable events *)

(** A reference to a unit object: its index in the store. *)
Abbreviation ref := nat (only parsing).

(** [PluginPreference]: plugin name -> (preference key -> value). *)
Definition PreferenceValueType := string.

(** What an outside observer can see happen. *)
Inductive Event :=
| EvCallInit (r : ref)      (* the unit's init() method is called *)
| EvHookInit (r : ref)      (* config.init runs *)
| EvCallDestroy (r : ref)   (* the unit's destroy() method is called *)
| EvHookDestroy (r : ref)   (* config.destroy runs *)
| EvLogError (n : string).  (* logger.error(`Failed to init plugin:${n} ...`) *)

Record State := {
  plugins : list ref;
  pluginsMap : gmap string ref;
  pluginPreference : option (gmap string (gmap string PreferenceValueType));
  heap : list LowCodePlugin;
  events : list Event;
}.

(** [new LowCodePluginManager(editor)] *)
Definition empty_manager : State :=
  {| plugins := []; pluginsMap := ∅; pluginPreference := Some ∅;
     heap := []; events := [] |}.

(** The errors of the taxonomy.  The source throws plain [Error] objects; the
    constructor records which [throw] or [invariant] raised it. *)
Inductive Error :=
| ConfigurationError                          (* 'pluginConfigCreator.pluginName required' *)
| DuplicatePluginError (n : string)           (* `Plugin with name ${n} exists` *)
| IncompatibleVersionError (n : string)       (* `plugin ${n} skipped, engine check failed ...` *)
| MissingDependencyError (missing : list string)  (* 'plugin dependency missing' *)
| HookExecutionError (r : ref)                (* a hook of unit r threw or rejected *)
| TypeError.                                  (* member access on undefined *)

Inductive Outcome (A : Type) :=
| Resolved (a : A)
| Rejected (e : Error).
Arguments Resolved {A} a.
Arguments Rejected {A} e.

(** ** A state-and-exception monad for the methods

    A rejection keeps the state reached so far: nothing is rolled back. *)
Definition M (A : Type) : Type := State → Outcome A * State.

Definition ret {A} (a : A) : M A := λ s, (Resolved a, s).

Definition bind {A B} (m : M A) (k : A → M B) : M B := λ s,
  match m s with
  | (Resolved a, s') => k a s'
  | (Rejected e, s') => (Rejected e, s')
  end.

Definition throw {A} (e : Error) : M A := λ s, (Rejected e, s).

(** [try { body } catch (e) { handler }] *)
Definition try_catch {A} (body : M A) (handler : Error → M A) : M A := λ s,
  match body s with
  | (Resolved a, s') => (Resolved a, s')
  | (Rejected e, s') => handler e s'
  end.

Definition gets {A} (f : State → A) : M A := λ s, (Resolved (f s), s).
Definition modify (f : State → State) : M unit := λ s, (Resolved tt, f s).

Declare Scope js_scope.
Delimit Scope js_scope with js.
Notation "x <- c1 ;; c2" := (bind c1 (λ x, c2))
  (at level 100, c1 at next level, right associativity) : js_scope.
Notation "c1 ;; c2" := (bind c1 (λ _, c2))
  (at level 100, right associativity) : js_scope.
Open Scope js_scope.

(** [for (const x of l) { await body(x) }] *)
Fixpoint for_of {A} (l : list A) (body : A → M unit) : M unit :=
  match l with
  | [] => ret tt
  | x :: l' => body x ;; for_of l' body
  end.

(** Modelled from the spec: [invariant(check, message, thing)] of [../utils]
    is not among the sources.  Registration "fails" when no name can be derived
    and [init] "aborts entirely (throws)" on a missing dependency: a falsy
    check throws. *)
Definition invariant (check : bool) (e : Error) : M unit :=
  if check then ret tt else throw e.

Definition emit (e : Event) : M unit :=
  modify (λ s, {| plugins := plugins s; pluginsMap := pluginsMap s;
                  pluginPreference := pluginPreference s; heap := heap s;
                  events := events s ++ [e] |}).

Definition set_plugins (l : list ref) : M unit :=
  modify (λ s, {| plugins := l; pluginsMap := pluginsMap s;
                  pluginPreference := pluginPreference s; heap := heap s;
                  events := events s |}).

Definition set_pluginsMap (m : gmap string ref) : M unit :=
  modify (λ s, {| plugins := plugins s; pluginsMap := m;
                  pluginPreference := pluginPreference s; heap := heap s;
                  events := events s |}).

Definition set_pluginPreference
    (p : option (gmap string (gmap string PreferenceValueType))) : M unit :=
  modify (λ s, {| plugins := plugins s; pluginsMap := pluginsMap s;
                  pluginPreference := p; heap := heap s;
                  events := events s |}).

Definition set_heap (h : list LowCodePlugin) : M unit :=
  modify (λ s, {| plugins := plugins s; pluginsMap := pluginsMap s;
                  pluginPreference := pluginPreference s; heap := h;
                  events := events s |}).

(** Reading a member of the object behind a reference.  A reference that
    points nowhere cannot arise in JavaScript; the model answers it the way a
    member access on [undefined] would. *)
Definition deref (r : ref) : M LowCodePlugin := λ s,
  match heap s !! r with
  | Some p => (Resolved p, s)
  | None => (Rejected TypeError, s)
  end.

(** In-place update of the object behind a reference. *)
Definition update (r : ref) (f : LowCodePlugin → LowCodePlugin) : M unit :=
  p <- deref r ;;
  h <- gets heap ;;
  set_heap (<[r := f p]> h).

(** Allocation of a new object. *)
Definition alloc (p : LowCodePlugin) : M ref :=
  h <- gets heap ;;
  set_heap (h ++ [p]) ;;
  ret (length h).

(** ** The plugin unit *)

(** Modelled from the spec: the methods of the class [LowCodePlugin] of
    [./plugin], which is not among the sources.  [init()] invokes the wrapped
    [init] hook at most once, calls after the first successful completion are
    no-ops, and a failure of the hook propagates to the caller; the
    initialized state is entered only after the hook resolves.  [destroyed]
    is terminal. *)
Definition plugin_init (r : ref) : M unit :=
  emit (EvCallInit r) ;;
  p <- deref r ;;
  match lifecycle p with
  | Registered =>
      match cfg_init (config p) with
      | Some h =>
          emit (EvHookInit r) ;;
          match h with
          | HookResolves => update r (set_lifecycle Initialized)
          | HookRejects => throw (HookExecutionError r)
          end
      | None => update r (set_lifecycle Initialized)
      end
  | Initialized | Destroyed => ret tt
  end.

(** Modelled from the spec: [destroy()] invokes the wrapped [destroy] hook if
    present, is safe to call when [init] never ran, and is a no-op on a unit
    that is already destroyed.  A failure of the hook is a
    [HookExecutionError] for the caller, like one of [init]. *)
Definition plugin_destroy (r : ref) : M unit :=
  emit (EvCallDestroy r) ;;
  p <- deref r ;;
  match lifecycle p with
  | Destroyed => ret tt
  | Registered | Initialized =>
      match cfg_destroy (config p) with
      | Some h =>
          emit (EvHookDestroy r) ;;
          match h with
          | HookResolves => update r (set_lifecycle Destroyed)
          | HookRejects => throw (HookExecutionError r)
          end
      | None => update r (set_lifecycle Destroyed)
      end
  end.

(** Modelled from the spec: [setDisabled(flag)] of the unit toggles the flag
    and nothing else. *)
Definition plugin_setDisabled (r : ref) (flag : bool) : M unit :=
  update r (set_disabled flag).

(** Modelled from the spec: the dependency names a unit declares, as the
    sequencer reads them. *)
Definition plugin_dep (p : LowCodePlugin) : list string := dependencies (meta p).

(** ** The dependency sequencer *)

Record SeqResult := {
  sequence : list string;
  missingTasks : list string;
}.

Module Sequencify.

Definition emit_name (n : string) (acc : SeqResult) : SeqResult :=
  {| sequence := sequence acc ++ [n]; missingTasks := missingTasks acc |}.

Definition report_missing (n : string) (acc : SeqResult) : SeqResult :=
  {| sequence := sequence acc; missingTasks := missingTasks acc ++ [n] |}.

(** Visit the names of a list one after the other; the flag tells whether
    every one of them could be ordered. *)
Fixpoint visit_all (visit1 : SeqResult → string → option (bool * SeqResult))
    (names : list string) (acc : SeqResult) : option (bool * SeqResult) :=
  match names with
  | [] => Some (true, acc)
  | n :: names' =>
      match visit1 acc n with
      | Some (ok1, acc1) =>
          match visit_all visit1 names' acc1 with
          | Some (ok2, acc2) => Some (ok1 && ok2, acc2)
          | None => None
          end
      | None => None
      end
  end.

(** Modelled from the spec: [sequencify] of [./sequencify] is not among the
    sources.  Depth-first traversal: a name already emitted is skipped; a
    name absent from [units] is appended to [missingTasks]; a name that
    carries the visiting marker closes a cycle and is reported as missing
    like an absent one; otherwise the dependencies are visited first and the
    unit is emitted after them, unless one of them could not be ordered, in
    which case the requesting unit is left out of the sequence.  [fuel]
    bounds the depth of the traversal. *)
Fixpoint visit (fuel : nat) (units : gmap string (list string))
    (visiting : list string) (acc : SeqResult) (n : string)
    : option (bool * SeqResult) :=
  match fuel with
  | 0 => None
  | S fuel' =>
      if bool_decide (n ∈ sequence acc) then Some (true, acc)
      else
        match units !! n with
        | None => Some (false, report_missing n acc)
        | Some deps =>
            if bool_decide (n ∈ visiting) then Some (false, report_missing n acc)
            else
              match visit_all (visit fuel' units (n :: visiting)) deps acc with
              | Some (true, acc') => Some (true, emit_name n acc')
              | Some (false, acc') => Some (false, acc')
              | None => None
              end
        end
  end.

Definition empty_result : SeqResult := {| sequence := []; missingTasks := [] |}.

Definition sequencify_fuel (fuel : nat) (units : gmap string (list string))
    (names : list string) : option SeqResult :=
  snd <$> visit_all (visit fuel units []) names empty_result.

(** The depth of the traversal never exceeds the number of units, so this
    much fuel always suffices ([sequencify_fuel_enough] below). *)
Definition sequencify (units : gmap string (list string)) (names : list string)
    : SeqResult :=
  default empty_result (sequencify_fuel (S (size units)) units names).

End Sequencify.

(** ** The manager *)

Inductive PreferenceResult :=
| PrefNull
| PrefUndefined
| PrefValue (v : gmap string PreferenceValueType).

(** What a property read on the manager's proxy yields. *)
Inductive ProxyValue :=
| PVUndefined                      (* undefined *)
| PVPluginProxy (r : ref)          (* the result of unit r's toProxy() *)
| PVManagerMember (prop : string). (* Reflect.get(target, prop, receiver) *)

(** [array.findIndex(pred)]; [None] stands for -1. *)
Fixpoint findIndex {A} (pred : A → bool) (l : list A) : option nat :=
  match l with
  | [] => None
  | x :: l' => if pred x then Some 0 else S <$> findIndex pred l'
  end.

(** [array.splice(idx, 1)] *)
Definition splice1 {A} (l : list A) (idx : nat) : list A :=
  take idx l ++ drop (S idx) l.

Module LowCodePluginManager.
Section Manager.

(** The collaborators outside the repository: the [satisfies] function of the
    semver package (called with [includePrerelease: true]) and the value the
    engine configuration holds under ['ENGINE_VERSION']. *)
Variable semverSatisfies : string → string → bool.
Variable ENGINE_VERSION : string.

(** The sequencer [init] calls.  The manager reads nothing of its answer but
    [missingTasks] and [sequence]; [Sequencify.sequencify] is the one modelled
    above. *)
Variable sequencify : gmap string (list string) → list string → SeqResult.

Definition isEngineVersionMatched (versionExp : string) : bool :=
  semverSatisfies ENGINE_VERSION versionExp.

(** [engineVersionExp && !this.isEngineVersionMatched(engineVersionExp)] with
    [engineVersionExp = engines && engines.lowcodeEngine] *)
Definition engine_check_failed (engines : option string) : bool :=
  match engines with
  | Some engineVersionExp =>
      truthy engines && negb (isEngineVersionMatched engineVersionExp)
  | None => false
  end.

(** [pluginName = pluginName || config.name] followed by
    [invariant(pluginName, 'pluginConfigCreator.pluginName required', config)] *)
Definition derive_pluginName (creator : PluginConfigCreator) : option string :=
  if truthy (creator_pluginName creator) then creator_pluginName creator
  else cfg_name (creator_config creator).

Definition invariant_pluginName (v : option string) : M string :=
  invariant (truthy v) ConfigurationError ;;
  match v with
  | Some n => ret n
  | None => throw ConfigurationError
  end.

(** [if (isLowCodeRegisterOptions(options)) { registerOptions = options; options = {}; }] *)
Definition effective_registerOptions
    (options registerOptions : option ILowCodeRegisterOptions)
    : option ILowCodeRegisterOptions :=
  if isLowCodeRegisterOptions options then options else registerOptions.

(** [register].  Building the context, filtering the options, calling the
    factory and [ctx.setPreference] touch only the fresh context object, and
    [logger.log] prints below the logger's level; none of them reaches the
    registry.  [originalPlugin?.destroy()] is not awaited, so a rejection of
    it is dropped. *)
Definition register (pluginConfigCreator : PluginConfigCreator)
    (options registerOptions : option ILowCodeRegisterOptions) : M unit :=
  let registerOptions := effective_registerOptions options registerOptions in
  let meta := default empty_meta (creator_meta pluginConfigCreator) in
  let engines := engines_lowcodeEngine meta in
  let config := creator_config pluginConfigCreator in
  pluginName <- invariant_pluginName (derive_pluginName pluginConfigCreator) ;;
  let allowOverride := bool_decide (registerOptions ≫= override = Some true) in
  m <- gets pluginsMap ;;
  match m !! pluginName with
  | Some originalPlugin =>
      if negb allowOverride then throw (DuplicatePluginError pluginName)
      else
        try_catch (plugin_destroy originalPlugin) (λ _, ret tt) ;;
        set_pluginsMap (base.delete pluginName m)
  | None => ret tt
  end ;;
  (if engine_check_failed engines
   then throw (IncompatibleVersionError pluginName) else ret tt) ;;
  plugin <- alloc (new_LowCodePlugin pluginName config meta) ;;
  (if bool_decide (registerOptions ≫= autoInit = Some true)
   then plugin_init plugin else ret tt) ;;
  ps <- gets plugins ;;
  set_plugins (ps ++ [plugin]) ;;
  m <- gets pluginsMap ;;
  set_pluginsMap (<[pluginName := plugin]> m).

Definition get (pluginName : string) (s : State) : option ref :=
  pluginsMap s !! pluginName.

Definition getAll (s : State) : list ref := plugins s.

Definition has (pluginName : string) (s : State) : bool :=
  bool_decide (is_Some (pluginsMap s !! pluginName)).

Definition size (s : State) : nat := base.size (pluginsMap s).

(** [delete]: the unit is looked up by name in the array, destroyed (awaited,
    so a rejection leaves the method here), cut out of the array, and the name
    is deleted from the map; the result is that of [Map.delete]. *)
Definition delete (pluginName : string) : M bool :=
  ps <- gets plugins ;;
  h <- gets heap ;;
  match findIndex (λ r, bool_decide (name <$> h !! r = Some pluginName)) ps with
  | None => ret false
  | Some idx =>
      match ps !! idx with
      | Some plugin =>
          plugin_destroy plugin ;;
          ps <- gets plugins ;;
          set_plugins (splice1 ps idx) ;;
          m <- gets pluginsMap ;;
          set_pluginsMap (base.delete pluginName m) ;;
          ret (bool_decide (is_Some (m !! pluginName)))
      | None => throw TypeError
      end
  end.

(** The [forEach] of [init]: [pluginNames.push(plugin.name)] and
    [pluginObj[plugin.name] = plugin]. *)
Fixpoint collect (ps : list ref) (pluginNames : list string)
    (pluginObj : gmap string ref) : M (list string * gmap string ref) :=
  match ps with
  | [] => ret (pluginNames, pluginObj)
  | plugin :: ps' =>
      p <- deref plugin ;;
      collect ps' (pluginNames ++ [name p]) (<[name p := plugin]> pluginObj)
  end.

(** The view of [pluginObj] the sequencer works on: each task with the
    dependency names of its unit. *)
Definition tasks_of (h : list LowCodePlugin) (pluginObj : gmap string ref)
    : gmap string (list string) :=
  omap (λ r, plugin_dep <$> h !! r) pluginObj.

(** One turn of the loop of [init]: the [try] block and its [catch]. *)
Definition init_one (pluginName : string) : M unit :=
  try_catch
    (m <- gets pluginsMap ;;
     match m !! pluginName with
     | Some plugin => plugin_init plugin
     | None => throw TypeError
     end)
    (λ _, emit (EvLogError pluginName)).

Definition init
    (pluginPreference : option (gmap string (gmap string PreferenceValueType)))
    : M unit :=
  set_pluginPreference pluginPreference ;;
  ps <- gets plugins ;;
  collected <- collect ps [] ∅ ;;
  let pluginNames := collected.1 in
  let pluginObj := collected.2 in
  h <- gets heap ;;
  let res := sequencify (tasks_of h pluginObj) pluginNames in
  invariant (bool_decide (missingTasks res = []))
            (MissingDependencyError (missingTasks res)) ;;
  for_of (sequence res) init_one.

Definition destroy : M unit :=
  ps <- gets plugins ;;
  for_of ps plugin_destroy.

Definition getPluginPreference (pluginName : string) (s : State) : PreferenceResult :=
  match pluginPreference s with
  | None => PrefNull
  | Some pref =>
      match pref !! pluginName with
      | Some v => PrefValue v
      | None => PrefUndefined
      end
  end.

(** The [get] trap of the proxy [toProxy()] returns. *)
Definition toProxy_get (prop : string) : M ProxyValue :=
  m <- gets pluginsMap ;;
  match m !! prop with
  | Some r =>
      p <- deref r ;;
      if disabled p then ret PVUndefined else ret (PVPluginProxy r)
  | None => ret (PVManagerMember prop)
  end.

Definition setDisabled (pluginName : string) (flag : bool) : M unit :=
  m <- gets pluginsMap ;;
  match m !! pluginName with
  | Some r => plugin_setDisabled r flag
  | None => ret tt
  end.

Definition dispose : M unit :=
  destroy ;;
  set_plugins [] ;;
  set_pluginsMap ∅.

(** What the [forEach] of [init] collects when every reference of the array
    is allocated, and what the sequencer then answers for the units registered
    in a state. *)
Fixpoint collected (h : list LowCodePlugin) (ps : list ref)
    (pluginNames : list string) (pluginObj : gmap string ref)
    : list string * gmap string ref :=
  match ps with
  | [] => (pluginNames, pluginObj)
  | plugin :: ps' =>
      match h !! plugin with
      | Some p => collected h ps' (pluginNames ++ [name p]) (<[name p := plugin]> pluginObj)
      | None => (pluginNames, pluginObj)
      end
  end.

Definition init_sequencing (s : State) : SeqResult :=
  let c := collected (heap s) (plugins s) [] ∅ in
  sequencify (tasks_of (heap s) c.2) c.1.

End Manager.
End LowCodePluginManager.

(** ** Vocabulary of the statements *)

(** A computation leaves an observation [f] of the state alone. *)
Definition preserves {A B} (f : State → B) (m : M A) : Prop :=
  ∀ s, f (m s).2 = f s.

(** Every reference of the [plugins] array points to an object. *)
Definition plugins_allocated (s : State) : Prop :=
  Forall (λ r, r < length (heap s)) (plugins s).

(** Every reference of [pluginsMap] points to an object. *)
Definition pluginsMap_allocated (s : State) : Prop :=
  map_Forall (λ _ r, r < length (heap s)) (pluginsMap s).

(** The units whose [init()] method was called, in order. *)
Definition init_calls (tr : list Event) : list ref :=
  omap (λ e, match e with EvCallInit r => Some r | _ => None end) tr.

(** The unit behind [r] is one whose [init()] rejects whenever it is called:
    it is not initialized yet and its [init] hook fails. *)
Definition fails_init (s : State) (r : ref) : Prop :=
  ∃ p, heap s !! r = Some p ∧ lifecycle p = Registered
       ∧ cfg_init (config p) = Some HookRejects.

Definition with_pluginPreference
    (pref : option (gmap string (gmap string PreferenceValueType)))
    (s : State) : State :=
  {| plugins := plugins s; pluginsMap := pluginsMap s; pluginPreference := pref;
     heap := heap s; events := events s |}.

(** What a call of [destroy()] on a unit in state [p] lets an observer see,
    whether it resolves, and the state it leaves the unit in. *)
Definition destroy_trace (r : ref) (p : LowCodePlugin) : list Event :=
  EvCallDestroy r ::
  match lifecycle p, cfg_destroy (config p) with
  | Destroyed, _ | _, None => []
  | _, Some _ => [EvHookDestroy r]
  end.

Definition destroy_resolves (p : LowCodePlugin) : bool :=
  match lifecycle p, cfg_destroy (config p) with
  | Destroyed, _ => true
  | _, Some HookRejects => false
  | _, _ => true
  end.

Definition after_destroy (p : LowCodePlugin) : LowCodePlugin :=
  match lifecycle p with
  | Destroyed => p
  | _ => if destroy_resolves p then set_lifecycle Destroyed p else p
  end.

(** The same for [init()]. *)
Definition init_trace (r : ref) (p : LowCodePlugin) : list Event :=
  EvCallInit r ::
  match lifecycle p, cfg_init (config p) with
  | Registered, Some _ => [EvHookInit r]
  | _, _ => []
  end.

Definition init_resolves (p : LowCodePlugin) : bool :=
  match lifecycle p, cfg_init (config p) with
  | Registered, Some HookRejects => false
  | _, _ => true
  end.

Definition after_init (p : LowCodePlugin) : LowCodePlugin :=
  match lifecycle p with
  | Registered => if init_resolves p then set_lifecycle Initialized p else p
  | _ => p
  end.

Definition with_heap_events (h : list LowCodePlugin) (ev : list Event)
    (s : State) : State :=
  {| plugins := plugins s; pluginsMap := pluginsMap s;
     pluginPreference := pluginPreference s; heap := h; events := ev |}.

Definition outcome_of (ok : bool) (e : Error) : Outcome unit :=
  if ok then Resolved tt else Rejected e.

(** [f] looks at the store only through the names of the units: what the
    lifecycle and the flags of a unit are, and what was observed so far, does
    not matter to it. *)
Definition unit_stable {B} (f : State → B) : Prop :=
  ∀ s h ev, name <$> h = name <$> heap s → f (with_heap_events h ev s) = f s.

Import LowCodePluginManager.

(** The state in which the override branch leaves the manager, before the
    version gate is looked at. *)
Definition after_override_teardown (x : string) (r : ref) (p : LowCodePlugin)
    (s : State) : State :=
  {| plugins := plugins s; pluginsMap := base.delete x (pluginsMap s);
     pluginPreference := pluginPreference s;
     heap := <[r := after_destroy p]> (heap s);
     events := events s ++ destroy_trace r p |}.

(** The unit [register] creates for a factory from which the name [x] is
    derived, and whether the call asks for [autoInit]. *)
Definition unit_of (creator : PluginConfigCreator) (x : string) : LowCodePlugin :=
  new_LowCodePlugin x (creator_config creator)
    (default empty_meta (creator_meta creator)).

Definition autoInit_requested
    (options registerOptions : option ILowCodeRegisterOptions) : bool :=
  bool_decide (effective_registerOptions options registerOptions ≫= autoInit = Some true).

(** The state a completed overriding registration leaves behind. *)
Definition after_override (x : string) (r : ref) (p newp : LowCodePlugin)
    (auto : bool) (s : State) : State :=
  let new := length (heap s) in
  {| plugins := plugins s ++ [new];
     pluginsMap := <[x := new]> (base.delete x (pluginsMap s));
     pluginPreference := pluginPreference s;
     heap := (if auto then <[new := after_init newp]> else id)
               (<[r := after_destroy p]> (heap s) ++ [newp]);
     events := events s ++ destroy_trace r p
               ++ (if auto then init_trace new newp else []) |}.

(** "Override always installs the new unit": the reading of the sentence that
    asks nothing of the call but the override flag and a passing gate. *)
Definition override_always_installs
    (semverSatisfies : string → string → bool) (ENGINE_VERSION : string) : Prop :=
  ∀ creator options registerOptions s x r p,
    derive_pluginName creator = Some x → x ≠ "" →
    get x s = Some r → heap s !! r = Some p →
    effective_registerOptions options registerOptions ≫= override = Some true →
    LowCodePluginManager.engine_check_failed semverSatisfies ENGINE_VERSION
      (engines_lowcodeEngine (default empty_meta (creator_meta creator))) = false →
    ∃ r', get x (register semverSatisfies ENGINE_VERSION
                   creator options registerOptions s).2 = Some r' ∧ r' ≠ r.

(** The unit behind [r] is allocated and its [destroy()] resolves. *)
Definition destroys_cleanly (h : list LowCodePlugin) (r : ref) : Prop :=
  ∃ p, h !! r = Some p ∧ destroy_resolves p = true.

(** An event of the teardown of unit [r]. *)
Definition teardown_event_of (rs : list ref) (e : Event) : Prop :=
  ∃ r, r ∈ rs ∧ (e = EvCallDestroy r ∨ e = EvHookDestroy r).

(** Every name of the sequence comes after all the names its unit depends on. *)
Definition dependency_ordered (units : gmap string (list string))
    (seq : list string) : Prop :=
  ∀ i n, seq !! i = Some n →
    ∃ deps, units !! n = Some deps ∧ ∀ d, d ∈ deps → d ∈ take i seq.

(** What one visit, of a name or of a list of names, guarantees. *)
Definition visit_post (units : gmap string (list string)) (acc : SeqResult)
    (names : list string) (ok : bool) (acc' : SeqResult) : Prop :=
  sequence acc `prefix_of` sequence acc'
  ∧ missingTasks acc `prefix_of` missingTasks acc'
  ∧ (dependency_ordered units (sequence acc) →
     dependency_ordered units (sequence acc'))
  ∧ (ok = true → ∀ n, n ∈ names → n ∈ sequence acc')
  ∧ (ok = false → missingTasks acc' ≠ []).

(** The array holds, behind [r], a unit [p] named [n]. *)
Definition registered_as (s : State) (n : string) (r : ref) (p : LowCodePlugin) : Prop :=
  r ∈ plugins s ∧ heap s !! r = Some p ∧ name p = n.

(** Every unit registered under the name [a] lists [b] among its
    dependencies. *)
Definition declares_dependency (s : State) (a b : string) : Prop :=
  ∀ r p, registered_as s a r p → b ∈ plugin_dep p.

(** The names of the allocated units, by reference. *)
Definition heap_names (s : State) : list string := name <$> heap s.

(** The part of the state the registry invariant is about. *)
Definition registry_of (s : State) : list nat * gmap string nat * list string :=
  (plugins s, pluginsMap s, heap_names s).

(** The registry invariant: the array holds no unit twice and no two units of
    one name, and the map holds exactly the units of the array, each under its
    name. *)
Definition consistent (s : State) : Prop :=
  NoDup (plugins s)
  ∧ (∀ r, r ∈ plugins s → is_Some (heap_names s !! r))
  ∧ (∀ r1 r2 n, r1 ∈ plugins s → r2 ∈ plugins s →
       heap_names s !! r1 = Some n → heap_names s !! r2 = Some n → r1 = r2)
  ∧ (∀ n r, pluginsMap s !! n = Some r ↔ r ∈ plugins s ∧ heap_names s !! r = Some n).


(** ** Sample plugins and managers *)

(** A stand-in for the semver matcher that agrees with it on the example of
    the version gate: host version 1.2.0 does not satisfy the range ^2.0.0. *)
Definition sample_semverSatisfies (version range : string) : bool :=
  negb (String.eqb version "1.2.0" && String.eqb range "^2.0.0").

(** A factory with a declared name, dependencies, an engine range and the two
    hooks. *)
Definition sample_creator (n : string) (deps : list string)
    (engines : option string) (init_hook destroy_hook : option HookResult)
    : PluginConfigCreator :=
  {| creator_pluginName := Some n;
     creator_meta := Some {| engines_lowcodeEngine := engines; dependencies := deps |};
     creator_config := {| cfg_name := None; cfg_init := init_hook;
                          cfg_destroy := destroy_hook |} |}.

(** The manager after the factories of a list were registered, in order, on a
    new manager of an engine of version 1.2.0. *)
Definition registered (cs : list PluginConfigCreator) : State :=
  foldl (λ s c, (register sample_semverSatisfies "1.2.0" c None None s).2)
        empty_manager cs.

(** The unit a plain plugin named x starts as, and the manager that holds it. *)
Definition unit_x : LowCodePlugin :=
  new_LowCodePlugin "x"
    {| cfg_name := None; cfg_init := Some HookResolves;
       cfg_destroy := Some HookResolves |}
    {| engines_lowcodeEngine := None; dependencies := [] |}.

Definition manager_with_x : State :=
  registered [sample_creator "x" [] None (Some HookResolves) (Some HookResolves)].

(** The same manager after [setDisabled("x", true)]. *)
Definition manager_with_disabled_x : State :=
  (setDisabled "x" true manager_with_x).2.

Definition override_options : option ILowCodeRegisterOptions :=
  Some {| autoInit := None; override := Some true |}.

Definition override_autoInit_options : option ILowCodeRegisterOptions :=
  Some {| autoInit := Some true; override := Some true |}.

(** A plugin a whose [init] hook fails, registered before a sound plugin b. *)
Definition manager_failing_init : State :=
  registered [sample_creator "a" [] None (Some HookRejects) None;
              sample_creator "b" [] None (Some HookResolves) None].

(** A plugin that depends on a name nobody registered. *)
Definition manager_with_ghost_dependency : State :=
  registered [sample_creator "a" ["ghost"] None (Some HookResolves) None].

(** A plugin a whose [destroy] hook fails, registered before a sound plugin b. *)
Definition unit_failing_destroy : LowCodePlugin :=
  new_LowCodePlugin "a"
    {| cfg_name := None; cfg_init := None; cfg_destroy := Some HookRejects |}
    {| engines_lowcodeEngine := None; dependencies := [] |}.

Definition manager_failing_destroy : State :=
  registered [sample_creator "a" [] None None (Some HookRejects);
              sample_creator "b" [] None None (Some HookResolves)].

(** Two plugins that depend on each other. *)
Definition manager_with_cycle : State :=
  registered [sample_creator "a" ["b"] None (Some HookResolves) None;
              sample_creator "b" ["a"] None (Some HookResolves) None].

(** ** Further vocabulary *)

(** The state a completed registration under a new name leaves behind. *)
Definition after_register (x : string) (newp : LowCodePlugin) (auto : bool)
    (s : State) : State :=
  let new := length (heap s) in
  {| plugins := plugins s ++ [new];
     pluginsMap := <[x := new]> (pluginsMap s);
     pluginPreference := pluginPreference s;
     heap := (if auto then <[new := after_init newp]> else id) (heap s ++ [newp]);
     events := events s ++ (if auto then init_trace new newp else []) |}.

(** The state a completed [delete] leaves behind. *)
Definition after_delete (n : string) (r : ref) (p : LowCodePlugin) (idx : nat)
    (s : State) : State :=
  {| plugins := splice1 (plugins s) idx;
     pluginsMap := base.delete n (pluginsMap s);
     pluginPreference := pluginPreference s;
     heap := <[r := after_destroy p]> (heap s);
     events := events s ++ destroy_trace r p |}.

(** The public operations that change the manager, as calls. *)
Inductive Operation :=
| OpRegister (creator : PluginConfigCreator)
             (options registerOptions : option ILowCodeRegisterOptions)
| OpDelete (pluginName : string)
| OpInit (pluginPreference : option (gmap string (gmap string PreferenceValueType)))
| OpDestroy
| OpSetDisabled (pluginName : string) (flag : bool)
| OpDispose.

(** The state a call leaves behind once it has resolved or rejected, when no
    other call is made in between. *)
Definition perform (semverSatisfies : string → string → bool)
    (ENGINE_VERSION : string)
    (sequencify : gmap string (list string) → list string → SeqResult)
    (op : Operation) (s : State) : State :=
  match op with
  | OpRegister creator options registerOptions =>
      (register semverSatisfies ENGINE_VERSION creator options registerOptions s).2
  | OpDelete pluginName => (delete pluginName s).2
  | OpInit pluginPreference => (init sequencify pluginPreference s).2
  | OpDestroy => (destroy s).2
  | OpSetDisabled pluginName flag => (setDisabled pluginName flag s).2
  | OpDispose => (dispose s).2
  end.

(** The call is a [register] that replaces a registered unit: the name it
    derives is taken and [override === true]. *)
Definition replaces_unit (op : Operation) (s : State) : Prop :=
  match op with
  | OpRegister creator options registerOptions =>
      ∃ x, derive_pluginName creator = Some x ∧ is_Some (get x s)
           ∧ effective_registerOptions options registerOptions ≫= override = Some true
  | _ => False
  end.

Definition is_init (op : Operation) : bool :=
  match op with OpInit _ => true | _ => false end.

(** The managers that calls made one after the other lead to, from a new
    one, when none of the calls replaces a unit.  Each call is awaited: it has
    resolved or rejected before the next one is made.  Calls that overlap are
    not among these: [delete], [init], [destroy] and [register] with
    [autoInit] read the registry, wait at an [await] and write afterwards, and
    a call made while another one waits there leads to managers this relation
    does not hold of. *)
Inductive reachable_in_sequence (semverSatisfies : string → string → bool)
    (ENGINE_VERSION : string)
    (sequencify : gmap string (list string) → list string → SeqResult)
    : State → Prop :=
| in_sequence_new :
    reachable_in_sequence semverSatisfies ENGINE_VERSION sequencify empty_manager
| in_sequence_step s op :
    reachable_in_sequence semverSatisfies ENGINE_VERSION sequencify s →
    ¬ replaces_unit op s →
    reachable_in_sequence semverSatisfies ENGINE_VERSION sequencify
      (perform semverSatisfies ENGINE_VERSION sequencify op s).

(** The units whose [destroy()] method was called, in order. *)
Definition destroy_calls (tr : list Event) : list ref :=
  omap (λ e, match e with EvCallDestroy r => Some r | _ => None end) tr.

(** The unit behind [r] is destroyed. *)
Definition destroyed_in (h : list LowCodePlugin) (r : ref) : Prop :=
  lifecycle <$> h !! r = Some Destroyed.

(** ** The engine's [init] ([packages/engine/src/engine-core.ts]) *)

Module EngineCore.

(** A DOM element: one the caller passed, or the k-th [div] the engine made
    with [document.createElement('div')]. *)
Inductive Element :=
| GivenElement (e : nat)
| CreatedDiv (k : nat).

(** The first argument of [init] as the function tells its cases apart:
    [isPlainObject(container)] holds (the engine options were passed first),
    or it is an element, or it is falsy. *)
Inductive ContainerArg (EngineOptions : Type) :=
| ContainerPlainObject (o : EngineOptions)
| ContainerElement (e : nat)
| ContainerAbsent.
Arguments ContainerPlainObject {EngineOptions} o.
Arguments ContainerElement {EngineOptions} e.
Arguments ContainerAbsent {EngineOptions}.

(** The module state of the engine and what its [init] acts on: the flag
    [engineInited], the plugin manager behind [plugins], the [div]s created,
    the children appended to [document.body], the elements whose [id] was set
    to ['engine'], the arguments of [engineConfig.setEngineOptions], and the
    containers the workbench was rendered into. *)
Record Engine (EngineOptions : Type) := {
  engineInited : bool;
  plugins_manager : State;
  created_divs : nat;
  body_children : list Element;
  engine_ids : list Element;
  engineOptions_set : list (option EngineOptions);
  rendered : list Element;
}.
Arguments engineInited {EngineOptions} e.
Arguments plugins_manager {EngineOptions} e.
Arguments created_divs {EngineOptions} e.
Arguments body_children {EngineOptions} e.
Arguments engine_ids {EngineOptions} e.
Arguments engineOptions_set {EngineOptions} e.
Arguments rendered {EngineOptions} e.

Section Init.
Context {EngineOptions : Type}.

(** What [plugins.init(pluginPreference)] does to the manager. *)
Variable plugins_init :
  option (gmap string (gmap string PreferenceValueType)) → M unit.

(** The options [init] hands to the engine configuration. *)
Definition chosen_options (container : ContainerArg EngineOptions)
    (options : option EngineOptions) : option EngineOptions :=
  match container with
  | ContainerPlainObject o => Some o
  | ContainerElement _ | ContainerAbsent => options
  end.

(** The element [init] mounts the workbench in: the one passed, or a new
    [div]. *)
Definition chosen_container (container : ContainerArg EngineOptions)
    (e : Engine EngineOptions) : Element :=
  match container with
  | ContainerElement el => GivenElement el
  | ContainerPlainObject _ | ContainerAbsent => CreatedDiv (created_divs e)
  end.

Definition creates_div (container : ContainerArg EngineOptions) : bool :=
  match container with
  | ContainerElement _ => false
  | ContainerPlainObject _ | ContainerAbsent => true
  end.

Definition init (container : ContainerArg EngineOptions)
    (options : option EngineOptions)
    (pluginPreference : option (gmap string (gmap string PreferenceValueType)))
    (e : Engine EngineOptions) : Outcome unit * Engine EngineOptions :=
  if engineInited e then (Resolved tt, e)
  else
    let engineOptions := chosen_options container options in
    let engineContainer := chosen_container container e in
    let created := if creates_div container then S (created_divs e) else created_divs e in
    let body := if creates_div container
                then body_children e ++ [engineContainer] else body_children e in
    let ids := engine_ids e ++ [engineContainer] in
    let opts := engineOptions_set e ++ [engineOptions] in
    match plugins_init pluginPreference (plugins_manager e) with
    | (Resolved _, m) =>
        (Resolved tt,
         {| engineInited := true; plugins_manager := m; created_divs := created;
            body_children := body; engine_ids := ids; engineOptions_set := opts;
            rendered := rendered e ++ [engineContainer] |})
    | (Rejected err, m) =>
        (Rejected err,
         {| engineInited := true; plugins_manager := m; created_divs := created;
            body_children := body; engine_ids := ids; engineOptions_set := opts;
            rendered := rendered e |})
    end.

End Init.
End EngineCore.

(** ** The breadcrumb and the tabs of the settings pane
    ([SettingsPrimaryPane]) *)

Module SettingsPrimaryPane.

(** A node as [renderBreadcrumb] reads it: its [id], what [isRoot()] and
    [contains(focusNode)] answer.  A node and its ancestors are a list: the
    node, then [node.parent], and so on up to the node whose parent is
    null. *)
Record Node := {
  node_id : string;
  isRoot : bool;
  contains_focusNode : bool;
}.

(** A [Breadcrumb.Item]: its [key], and whether it was given the
    [onMouseOver]/[onMouseOut]/[onClick] handlers. *)
Record BreadcrumbItem := {
  item_key : string;
  item_handlers : bool;
}.

(** The [while (l-- > 0 && node)] loop; [items.unshift] puts the new item in
    front. *)
Fixpoint breadcrumb_loop (shouldIgnoreRoot : bool) (l : Z) (chain : list Node)
    (items : list BreadcrumbItem) : list BreadcrumbItem :=
  if (0 <? l)%Z then
    match chain with
    | [] => items
    | node :: parents =>
        let l := (l - 1)%Z in
        if shouldIgnoreRoot && isRoot node then items
        else
          let l := if contains_focusNode node then 0%Z else l in
          let item := {| item_key := node_id node;
                         item_handlers := negb (l =? 2)%Z |} in
          breadcrumb_loop shouldIgnoreRoot l parents (item :: items)
    end
  else items.

(** The items of the breadcrumb for the selected node [settings.first] and
    its ancestors. *)
Definition breadcrumb_items (shouldIgnoreRoot : bool) (chain : list Node)
    : list BreadcrumbItem :=
  breadcrumb_loop shouldIgnoreRoot 3 chain [].

(** A field of [settings.items] as [render] reads it. *)
Record SettingItem := {
  isSettingField : bool;
  isGroup : bool;
  field_name : string;
}.

Record Settings := {
  isLocked : bool;
  settings_items : list SettingItem;
  isSameComponent : bool;
}.

(** What [render] shows. *)
Inductive View :=
| NoticeSelectNode      (* no settings: nothing is selected *)
| NoticeLocked
| NoticeNoConfig
| NoticeSameType
| SinglePane
| Tabs (tabs : list string) (activeKey : option string) (hideTabs : bool).

(** [render], given the two configuration flags it reads and [_activeKey]. *)
Definition render (enableLockedNodeSetting hideSettingsTabsWhenOnlyOneItem : bool)
    (_activeKey : option string) (settings : option Settings) : View :=
  match settings with
  | None => NoticeSelectNode
  | Some settings =>
      if isLocked settings && negb enableLockedNodeSetting then NoticeLocked
      else if bool_decide (length (settings_items settings) = 0) then NoticeNoConfig
      else if negb (isSameComponent settings) then NoticeSameType
      else
        let items := settings_items settings in
        if bool_decide (5 < length items)
           || existsb (λ item, negb (isSettingField item) || negb (isGroup item)) items
        then SinglePane
        else
          let matched :=
            existsb (λ field, bool_decide (_activeKey = Some (field_name field))) items in
          let activeKey :=
            if matched then _activeKey else field_name <$> head items in
          Tabs (field_name <$> items) activeKey
               (bool_decide (length items = 1) && hideSettingsTabsWhenOnlyOneItem)
  end.

End SettingsPrimaryPane.

(** The nodes the breadcrumb shows, said directly: of the selected node and
    its ancestors, those before the first root (when the root is ignored), up
    to and including the first that contains the focus node, three at most. *)
Fixpoint upto_focus (chain : list SettingsPrimaryPane.Node)
    : list SettingsPrimaryPane.Node :=
  match chain with
  | [] => []
  | node :: parents =>
      if SettingsPrimaryPane.contains_focusNode node then [node]
      else node :: upto_focus parents
  end.

Fixpoint before_root (chain : list SettingsPrimaryPane.Node)
    : list SettingsPrimaryPane.Node :=
  match chain with
  | [] => []
  | node :: parents =>
      if SettingsPrimaryPane.isRoot node then [] else node :: before_root parents
  end.

Definition shown_nodes (shouldIgnoreRoot : bool)
    (chain : list SettingsPrimaryPane.Node) : list SettingsPrimaryPane.Node :=
  take 3 (upto_focus (if shouldIgnoreRoot then before_root chain else chain)).

(** The item of an ancestor always has the handlers; the item of the selected
    node has them only when that node contains the focus node. *)
Definition ancestor_item (node : SettingsPrimaryPane.Node)
    : SettingsPrimaryPane.BreadcrumbItem :=
  {| SettingsPrimaryPane.item_key := SettingsPrimaryPane.node_id node;
     SettingsPrimaryPane.item_handlers := true |}.

Definition selected_item (node : SettingsPrimaryPane.Node)
    : SettingsPrimaryPane.BreadcrumbItem :=
  {| SettingsPrimaryPane.item_key := SettingsPrimaryPane.node_id node;
     SettingsPrimaryPane.item_handlers := SettingsPrimaryPane.contains_focusNode node |}.

Definition items_of (nodes : list SettingsPrimaryPane.Node)
    : list SettingsPrimaryPane.BreadcrumbItem :=
  match nodes with
  | [] => []
  | node :: ancestors => rev (ancestor_item <$> ancestors) ++ [selected_item node]
  end.

(** ** Further samples *)

(** A unit whose [destroy] hook fails, alone in its manager. *)
Definition manager_with_failing_destroy : State :=
  registered [sample_creator "a" [] None None (Some HookRejects)].

(** Calls made one after the other on a new manager: two registrations, one
    of them with [override] under a name that is free, a registration that is
    refused as a duplicate, the initialization, a unit disabled, a unit
    deleted, an unknown name deleted, a third registration with [autoInit],
    and the teardown. *)
Definition sample_calls : list Operation :=
  [ OpRegister (sample_creator "a" [] None (Some HookResolves) (Some HookResolves))
      None None;
    OpRegister (sample_creator "b" ["a"] None (Some HookRejects) (Some HookRejects))
      override_options None;
    OpRegister (sample_creator "a" [] None None None) None None;
    OpInit None;
    OpSetDisabled "b" true;
    OpDelete "a";
    OpDelete "ghost";
    OpRegister (sample_creator "c" [] (Some "^1.0.0") (Some HookResolves) None)
      None (Some {| autoInit := Some true; override := None |});
    OpDestroy ].

Definition manager_after_sample_calls : State :=
  foldl (λ s op, perform sample_semverSatisfies "1.2.0" Sequencify.sequencify op s)
        empty_manager sample_calls.


(** Settings with two group fields. *)
Definition sample_settings : SettingsPrimaryPane.Settings :=
  {| SettingsPrimaryPane.isLocked := false;
     SettingsPrimaryPane.settings_items :=
       [ {| SettingsPrimaryPane.isSettingField := true;
            SettingsPrimaryPane.isGroup := true;
            SettingsPrimaryPane.field_name := "props" |};
         {| SettingsPrimaryPane.isSettingField := true;
            SettingsPrimaryPane.isGroup := true;
            SettingsPrimaryPane.field_name := "styles" |} ];
     SettingsPrimaryPane.isSameComponent := true |}.

(** * Facts *)

(** ** Frame lemmas *)

Section Frame.
Context {B : Type} (f : State → B).

Lemma preserves_ret {A} (a : A) : preserves f (ret a).
Proof. intros s. reflexivity. Qed.

Lemma preserves_throw {A} (e : Error) : preserves f (@throw A e).
Proof. intros s. reflexivity. Qed.

Lemma preserves_gets {A} (g : State → A) : preserves f (gets g).
Proof. intros s. reflexivity. Qed.

Lemma preserves_bind {A C} (m : M A) (k : A → M C) :
  preserves f m → (∀ a, preserves f (k a)) → preserves f (bind m k).
Proof.
  intros Hm Hk s. unfold bind.
  specialize (Hm s). destruct (m s) as [[a|e] s1]; simpl in *.
  - rewrite Hk. exact Hm.
  - exact Hm.
Qed.

Lemma preserves_try_catch {A} (m : M A) (h : Error → M A) :
  preserves f m → (∀ e, preserves f (h e)) → preserves f (try_catch m h).
Proof.
  intros Hm Hh s. unfold try_catch.
  specialize (Hm s). destruct (m s) as [[a|e] s1]; simpl in *.
  - exact Hm.
  - rewrite Hh. exact Hm.
Qed.

Lemma preserves_for_of {A} (l : list A) (body : A → M unit) :
  (∀ x, preserves f (body x)) → preserves f (for_of l body).
Proof.
  intros Hb. induction l as [|x l IH]; simpl.
  - apply preserves_ret.
  - apply preserves_bind; auto.
Qed.

Lemma preserves_invariant (c : bool) (e : Error) : preserves f (invariant c e).
Proof. destruct c; [apply preserves_ret | apply preserves_throw]. Qed.

Lemma preserves_modify (g : State → State) :
  (∀ s, f (g s) = f s) → preserves f (modify g).
Proof. intros H s. apply H. Qed.

End Frame.

Lemma deref_preserves {B} (f : State → B) r : preserves f (deref r).
Proof. intros s. unfold deref. destruct (heap s !! r); reflexivity. Qed.

Lemma unit_stable_plugins : unit_stable plugins.
Proof. intros s h ev _. reflexivity. Qed.
Lemma unit_stable_pluginsMap : unit_stable pluginsMap.
Proof. intros s h ev _. reflexivity. Qed.
Lemma unit_stable_pluginPreference : unit_stable pluginPreference.
Proof. intros s h ev _. reflexivity. Qed.

Lemma emit_stable {B} (f : State → B) e : unit_stable f → preserves f (emit e).
Proof. intros H s. apply (H s (heap s) (events s ++ [e])). reflexivity. Qed.

(** An update that keeps the name of the unit. *)
Lemma update_stable {B} (f : State → B) r g :
  (∀ p, name (g p) = name p) → unit_stable f → preserves f (update r g).
Proof.
  intros Hg H s. unfold update, bind, deref, gets, set_heap, modify.
  destruct (heap s !! r) as [p|] eqn:Hp; [|reflexivity]. simpl.
  apply (H s (<[r := g p]> (heap s)) (events s)).
  rewrite list_fmap_insert, Hg. apply list_insert_id.
  by rewrite list_lookup_fmap, Hp.
Qed.

Lemma plugin_init_stable {B} (f : State → B) r :
  unit_stable f → preserves f (plugin_init r).
Proof.
  intros H. unfold plugin_init.
  apply preserves_bind; [by apply emit_stable|intros _].
  apply preserves_bind; [apply deref_preserves|intros p].
  destruct (lifecycle p); [|apply preserves_ret..].
  destruct (cfg_init (config p)) as [[]|].
  - apply preserves_bind; [by apply emit_stable|intros _]. by apply update_stable.
  - apply preserves_bind; [by apply emit_stable|intros _]. apply preserves_throw.
  - by apply update_stable.
Qed.

Lemma plugin_destroy_stable {B} (f : State → B) r :
  unit_stable f → preserves f (plugin_destroy r).
Proof.
  intros H. unfold plugin_destroy.
  apply preserves_bind; [by apply emit_stable|intros _].
  apply preserves_bind; [apply deref_preserves|intros p].
  destruct (lifecycle p); [| |apply preserves_ret];
  (destruct (cfg_destroy (config p)) as [[]|];
   [ apply preserves_bind; [by apply emit_stable|intros _]; by apply update_stable
   | apply preserves_bind; [by apply emit_stable|intros _]; apply preserves_throw
   | by apply update_stable ]).
Qed.

Section InitFacts.
Variable sequencify : gmap string (list string) → list string → SeqResult.

Lemma collect_preserves {B} (f : State → B) ps names obj :
  preserves f (collect ps names obj).
Proof.
  revert names obj. induction ps as [|r ps IH]; intros names obj; simpl.
  - apply preserves_ret.
  - apply preserves_bind; [apply deref_preserves|intros p]. apply IH.
Qed.

Lemma init_one_stable {B} (f : State → B) n :
  unit_stable f → preserves f (init_one n).
Proof.
  intros H. unfold init_one. apply preserves_try_catch.
  - apply preserves_bind; [apply preserves_gets|intros m].
    destruct (m !! n); [by apply plugin_init_stable|apply preserves_throw].
  - intros e. by apply emit_stable.
Qed.

Lemma bind_modify {B} (g : State → State) (k : unit → M B) s :
  bind (modify g) k s = k tt (g s).
Proof. reflexivity. Qed.

Lemma init_pluginPreference pref s :
  pluginPreference (init sequencify pref s).2 = pref.
Proof.
  unfold init, set_pluginPreference. rewrite bind_modify.
  match goal with
  | |- pluginPreference (?m ?s1).2 = _ =>
      transitivity (pluginPreference s1); [|reflexivity];
      generalize s1; change (preserves pluginPreference m)
  end.
  apply preserves_bind; [apply preserves_gets|intros ps].
  apply preserves_bind; [apply collect_preserves|intros c].
  apply preserves_bind; [apply preserves_gets|intros h].
  apply preserves_bind; [apply preserves_invariant|intros _].
  apply preserves_for_of. intros n. apply init_one_stable.
  apply unit_stable_pluginPreference.
Qed.

(** C10.  Calling [init()] with no preference map replaces the stored
    preference snapshot, the initial empty map included, with the absent
    value: afterwards [getPluginPreference(name)] is [null] for every name,
    whatever the sequencer answers and whether or not [init] completes. *)
Theorem init_without_preference_forgets_snapshot (s : State) (pluginName : string) :
  pluginPreference (init sequencify None s).2 = None
  ∧ getPluginPreference pluginName (init sequencify None s).2 = PrefNull.
Proof.
  unfold getPluginPreference. by rewrite init_pluginPreference.
Qed.

(** Before any [init], a new manager answers [undefined], not [null]: its
    snapshot is the empty map. *)
Lemma new_manager_preference pluginName :
  getPluginPreference pluginName empty_manager = PrefUndefined.
Proof. reflexivity. Qed.

Lemma collect_allocated ps : ∀ names obj s,
  Forall (λ r, r < length (heap s)) ps →
  collect ps names obj s = (Resolved (collected (heap s) ps names obj), s).
Proof.
  induction ps as [|r ps IH]; intros names obj s Hall; simpl.
  - reflexivity.
  - inversion Hall as [|? ? Hr Hps]; subst.
    apply lookup_lt_is_Some_2 in Hr as [p Hp].
    unfold bind, deref. rewrite Hp. rewrite IH by done. reflexivity.
Qed.

Lemma init_unfold pref s :
  plugins_allocated s →
  init sequencify pref s =
    (invariant (bool_decide (missingTasks (init_sequencing sequencify s) = []))
       (MissingDependencyError (missingTasks (init_sequencing sequencify s))) ;;
     for_of (sequence (init_sequencing sequencify s)) init_one)
    (with_pluginPreference pref s).
Proof.
  intros Hall. unfold init. unfold bind at 1. simpl.
  unfold bind at 1. simpl. unfold bind at 1.
  rewrite collect_allocated by exact Hall. simpl.
  unfold bind at 1. simpl. reflexivity.
Qed.

(** C4.  If the sequencer reports missing tasks for the registered units,
    [init()] throws the dependency error before any unit is touched: the
    state it leaves is the one it started from with the preference snapshot
    replaced, so no [init()] was called, no hook ran and no unit changed. *)
Theorem init_missing_dependency_aborts (s : State)
    (pref : option (gmap string (gmap string PreferenceValueType))) :
  plugins_allocated s →
  missingTasks (init_sequencing sequencify s) ≠ [] →
  init sequencify pref s =
    (Rejected (MissingDependencyError (missingTasks (init_sequencing sequencify s))),
     with_pluginPreference pref s)
  ∧ events (init sequencify pref s).2 = events s
  ∧ heap (init sequencify pref s).2 = heap s.
Proof.
  intros Hall Hmiss. rewrite init_unfold by done.
  unfold bind, invariant. rewrite bool_decide_eq_false_2 by done. done.
Qed.

Lemma init_calls_app tr1 tr2 : init_calls (tr1 ++ tr2) = init_calls tr1 ++ init_calls tr2.
Proof. unfold init_calls. apply omap_app. Qed.

(** What one call of a unit's [init()] does to the state. *)
Lemma plugin_init_effect r s :
  ∃ o s' tr,
    plugin_init r s = (o, s')
    ∧ events s' = events s ++ EvCallInit r :: tr
    ∧ init_calls tr = []
    ∧ plugins s' = plugins s ∧ pluginsMap s' = pluginsMap s
    ∧ (∀ r0, fails_init s r0 → fails_init s' r0)
    ∧ (fails_init s r → ∃ e, o = Rejected e).
Proof.
  unfold plugin_init, bind, emit, modify, deref; simpl.
  destruct (heap s !! r) as [p|] eqn:Hp.
  2:{ eexists _, _, []. split; [reflexivity|]. simpl. repeat split; try done.
      intros (p & Hp' & _). congruence. }
  destruct (lifecycle p) eqn:Hl.
  2,3: eexists _, _, []; (split; [reflexivity|]); simpl; repeat split; try done;
       intros (p' & Hp' & Hl' & _); congruence.
  assert (Hfr : ∀ r0 h', fails_init s r0 → r0 ≠ r →
            fails_init {| plugins := plugins s; pluginsMap := pluginsMap s;
                          pluginPreference := pluginPreference s;
                          heap := <[r := h']> (heap s); events := events s ++ [EvCallInit r] |} r0).
  { intros r0 h' (p0 & H0 & H1 & H2) Hne. exists p0. simpl.
    rewrite list_lookup_insert_ne by done. done. }
  destruct (cfg_init (config p)) as [[]|] eqn:Hc; unfold update, bind, deref, gets, set_heap, modify, throw; simpl; rewrite ?Hp.
  - eexists _, _, [EvHookInit r]. split; [reflexivity|]. simpl.
    rewrite <- app_assoc. repeat split; try done.
    + intros r0 (p0 & H0 & H1 & H2). destruct (decide (r0 = r)) as [->|Hne].
      * congruence.
      * exists p0. simpl. rewrite list_lookup_insert_ne by done. done.
    + intros (p0 & H0 & H1 & H2). congruence.
  - eexists _, _, [EvHookInit r]. split; [reflexivity|]. simpl.
    rewrite <- app_assoc. repeat split; try done.
    intros _. eauto.
  - eexists _, _, []. split; [reflexivity|]. simpl. repeat split; try done.
    + intros r0 (p0 & H0 & H1 & H2). destruct (decide (r0 = r)) as [->|Hne].
      * congruence.
      * exists p0. simpl. rewrite list_lookup_insert_ne by done. done.
    + intros (p0 & H0 & H1 & H2). congruence.
Qed.

(** One turn of the loop always completes, calls [init()] of the unit the map
    holds under the name, and logs when that call fails. *)
Lemma init_one_effect n s :
  ∃ s' tr,
    init_one n s = (Resolved tt, s')
    ∧ events s' = events s ++ tr
    ∧ init_calls tr = option_list (pluginsMap s !! n)
    ∧ plugins s' = plugins s ∧ pluginsMap s' = pluginsMap s
    ∧ (∀ r0, fails_init s r0 → fails_init s' r0)
    ∧ (∀ r, pluginsMap s !! n = Some r → fails_init s r → EvLogError n ∈ tr).
Proof.
  unfold init_one, try_catch, bind, gets. simpl.
  destruct (pluginsMap s !! n) as [r|] eqn:Hn.
  - destruct (plugin_init_effect r s) as (o & s1 & tr & Hrun & Hev & Hcalls & Hps & Hm & Hfr & Hfail).
    rewrite Hrun. destruct o as [[]|e].
    + exists s1, (EvCallInit r :: tr). repeat split; try done.
      * simpl. by rewrite Hcalls.
      * intros r' [= <-] Hf. destruct (Hfail Hf) as [e He]. done.
    + exists (emit (EvLogError n) s1).2, (EvCallInit r :: tr ++ [EvLogError n]).
      split; [reflexivity|]. simpl. rewrite Hev.
      repeat split; try done.
      * by rewrite <- app_assoc.
      * rewrite init_calls_app, Hcalls. reflexivity.
      * intros _ _ _. set_solver.
  - exists (emit (EvLogError n) s).2, [EvLogError n]. split; [reflexivity|].
    simpl. repeat split; try done.
Qed.

Lemma init_loop_effect names : ∀ s,
  ∃ s' tr,
    for_of names init_one s = (Resolved tt, s')
    ∧ events s' = events s ++ tr
    ∧ init_calls tr = omap (λ n, pluginsMap s !! n) names
    ∧ plugins s' = plugins s ∧ pluginsMap s' = pluginsMap s
    ∧ (∀ n r, n ∈ names → pluginsMap s !! n = Some r → fails_init s r →
         EvLogError n ∈ tr).
Proof.
  induction names as [|n names IH]; intros s; simpl.
  - exists s, []. rewrite app_nil_r. repeat split; try done. intros ?? H; inversion H.
  - destruct (init_one_effect n s) as (s1 & tr1 & Hrun & Hev & Hcalls & Hps & Hm & Hfr & Hlog).
    destruct (IH s1) as (s2 & tr2 & Hrun2 & Hev2 & Hcalls2 & Hps2 & Hm2 & Hlog2).
    exists s2, (tr1 ++ tr2). unfold bind. rewrite Hrun, Hrun2.
    repeat split; try congruence.
    + rewrite Hev2, Hev. by rewrite app_assoc.
    + rewrite init_calls_app, Hcalls, Hcalls2, Hm.
      destruct (pluginsMap s !! n); reflexivity.
    + intros n' r Hin Hn' Hf. apply elem_of_app.
      apply elem_of_cons in Hin as [->|Hin].
      * left. eauto.
      * right. apply (Hlog2 n' r Hin); [by rewrite Hm|by apply Hfr].
Qed.

(** C3.  When the sequencer reports nothing missing, [init()] resolves
    whatever the hooks do; the units whose [init()] is called are exactly
    those of the computed sequence, in its order (a unit that follows a
    failing one included), and every failure of a unit is logged under its
    name. *)
Theorem init_isolates_unit_failures (s : State)
    (pref : option (gmap string (gmap string PreferenceValueType))) :
  plugins_allocated s →
  missingTasks (init_sequencing sequencify s) = [] →
  ∃ s' tr,
    init sequencify pref s = (Resolved tt, s')
    ∧ events s' = events s ++ tr
    ∧ init_calls tr
      = omap (λ n, pluginsMap s !! n) (sequence (init_sequencing sequencify s))
    ∧ (∀ n r, n ∈ sequence (init_sequencing sequencify s) →
         pluginsMap s !! n = Some r → fails_init s r → EvLogError n ∈ tr).
Proof.
  intros Hall Hmiss. rewrite init_unfold by done.
  unfold bind at 1, invariant. rewrite bool_decide_eq_true_2 by done.
  simpl.
  destruct (init_loop_effect (sequence (init_sequencing sequencify s))
              (with_pluginPreference pref s))
    as (s' & tr & Hrun & Hev & Hcalls & _ & _ & Hlog).
  exists s', tr. repeat split; done.
Qed.

End InitFacts.

(** The exact effect of [destroy()] on an allocated unit. *)
Lemma plugin_destroy_run r p s :
  heap s !! r = Some p →
  plugin_destroy r s =
    (outcome_of (destroy_resolves p) (HookExecutionError r),
     with_heap_events (<[r := after_destroy p]> (heap s))
                      (events s ++ destroy_trace r p) s).
Proof.
  intros Hp.
  unfold plugin_destroy, bind, emit, modify, deref, with_heap_events,
    outcome_of, destroy_trace, destroy_resolves, after_destroy, destroy_resolves.
  simpl. rewrite Hp.
  destruct (lifecycle p) eqn:Hl;
    destruct (cfg_destroy (config p)) as [[]|] eqn:Hc;
    unfold update, bind, deref, gets, set_heap, modify, throw; simpl;
    rewrite ?Hp; simpl; rewrite <- ?app_assoc; simpl;
    rewrite ?(list_insert_id _ _ _ Hp); reflexivity.
Qed.

Lemma plugin_init_run r p s :
  heap s !! r = Some p →
  plugin_init r s =
    (outcome_of (init_resolves p) (HookExecutionError r),
     with_heap_events (<[r := after_init p]> (heap s))
                      (events s ++ init_trace r p) s).
Proof.
  intros Hp.
  unfold plugin_init, bind, emit, modify, deref, with_heap_events,
    outcome_of, init_trace, init_resolves, after_init, init_resolves.
  simpl. rewrite Hp.
  destruct (lifecycle p) eqn:Hl;
    destruct (cfg_init (config p)) as [[]|] eqn:Hc;
    unfold update, bind, deref, gets, set_heap, modify, throw; simpl;
    rewrite ?Hp; simpl; rewrite <- ?app_assoc; simpl;
    rewrite ?(list_insert_id _ _ _ Hp); reflexivity.
Qed.

Lemma truthy_Some x : x ≠ "" → truthy (Some x) = true.
Proof.
  intros Hx. simpl. destruct (String.eqb_spec x ""); done.
Qed.

Lemma invariant_pluginName_truthy x s :
  x ≠ "" → invariant_pluginName (Some x) s = (Resolved x, s).
Proof.
  intros Hx. unfold invariant_pluginName, invariant. rewrite truthy_Some by done.
  reflexivity.
Qed.

Lemma invariant_pluginName_falsy v s :
  truthy v = false → invariant_pluginName v s = (Rejected ConfigurationError, s).
Proof.
  intros Hv. unfold invariant_pluginName, invariant. rewrite Hv. reflexivity.
Qed.

Section RegisterFacts.
Variable semverSatisfies : string → string → bool.
Variable ENGINE_VERSION : string.

Local Abbreviation register := (LowCodePluginManager.register semverSatisfies ENGINE_VERSION).
Local Abbreviation engine_check_failed :=
  (LowCodePluginManager.engine_check_failed semverSatisfies ENGINE_VERSION).

(** A factory from which no name can be derived is refused before anything
    is touched. *)
Lemma register_without_name creator options registerOptions s :
  truthy (derive_pluginName creator) = false →
  register creator options registerOptions s = (Rejected ConfigurationError, s).
Proof.
  intros Hn. unfold LowCodePluginManager.register, bind.
  rewrite invariant_pluginName_falsy by done. reflexivity.
Qed.

(** A second registration under a name, without override, is refused before
    anything is touched. *)
Lemma register_duplicate_run creator options registerOptions s x r :
  derive_pluginName creator = Some x → x ≠ "" →
  pluginsMap s !! x = Some r →
  effective_registerOptions options registerOptions ≫= override ≠ Some true →
  register creator options registerOptions s = (Rejected (DuplicatePluginError x), s).
Proof.
  intros Hname Hne Hx Hov.
  unfold LowCodePluginManager.register, bind. rewrite Hname.
  rewrite invariant_pluginName_truthy by done.
  unfold gets. simpl. rewrite Hx.
  rewrite bool_decide_eq_false_2 by done. reflexivity.
Qed.

(** C7.  When a unit is registered under the name [x], a second [register]
    that derives the same name without [override === true] throws (the
    duplicate error, for a name that is not the empty string) and leaves the
    whole state as it was: [get(x)] still returns the original object, and no
    object of the store has changed. *)
Theorem register_duplicate_without_override
    (creator : PluginConfigCreator)
    (options registerOptions : option ILowCodeRegisterOptions)
    (s : State) (x : string) (r : ref) :
  derive_pluginName creator = Some x →
  get x s = Some r →
  effective_registerOptions options registerOptions ≫= override ≠ Some true →
  ∃ e, register creator options registerOptions s = (Rejected e, s)
       ∧ (x ≠ "" → e = DuplicatePluginError x)
       ∧ get x (register creator options registerOptions s).2 = Some r
       ∧ heap (register creator options registerOptions s).2 = heap s.
Proof.
  intros Hname Hx Hov. unfold get in Hx.
  destruct (decide (x = "")) as [->|Hne].
  - exists ConfigurationError.
    rewrite register_without_name by (rewrite Hname; reflexivity). done.
  - exists (DuplicatePluginError x).
    rewrite (register_duplicate_run _ _ _ _ x r) by done. done.
Qed.

(** A failing version gate leaves the state alone when the name is new. *)
Lemma register_gate_failure_new_name creator options registerOptions s x :
  derive_pluginName creator = Some x → x ≠ "" →
  pluginsMap s !! x = None →
  engine_check_failed
    (engines_lowcodeEngine (default empty_meta (creator_meta creator))) = true →
  register creator options registerOptions s
  = (Rejected (IncompatibleVersionError x), s).
Proof.
  intros Hname Hne Hx Hgate. unfold LowCodePluginManager.register, bind.
  rewrite Hname. rewrite invariant_pluginName_truthy by done.
  unfold gets. simpl. rewrite Hx. simpl. rewrite Hgate. reflexivity.
Qed.

(** C1, where the code departs from it.  [register] called with
    [override === true] for a registered name [x] and a plugin whose engine
    range the host does not satisfy throws the incompatibility error only after
    the override branch ran: [destroy()] of the original unit was called and
    [x] is gone from [pluginsMap], so the registry is not what it was. *)
Theorem register_override_then_gate_failure
    (creator : PluginConfigCreator)
    (options registerOptions : option ILowCodeRegisterOptions)
    (s : State) (x : string) (r : ref) (p : LowCodePlugin) :
  derive_pluginName creator = Some x → x ≠ "" →
  get x s = Some r → heap s !! r = Some p →
  effective_registerOptions options registerOptions ≫= override = Some true →
  engine_check_failed
    (engines_lowcodeEngine (default empty_meta (creator_meta creator))) = true →
  register creator options registerOptions s
  = (Rejected (IncompatibleVersionError x), after_override_teardown x r p s)
  ∧ get x (after_override_teardown x r p s) = None
  ∧ pluginsMap (after_override_teardown x r p s) ≠ pluginsMap s
  ∧ EvCallDestroy r ∈ events (after_override_teardown x r p s).
Proof.
  intros Hname Hne Hx Hp Hov Hgate. unfold get in Hx.
  split; [|split; [|split]].
  - unfold LowCodePluginManager.register, bind.
    rewrite Hname. rewrite invariant_pluginName_truthy by done.
    unfold gets. simpl. rewrite Hx. rewrite Hov.
    rewrite bool_decide_eq_true_2 by done. simpl.
    unfold try_catch, bind. rewrite (plugin_destroy_run r p s Hp).
    unfold outcome_of. rewrite Hgate.
    destruct (destroy_resolves p); reflexivity.
  - unfold get. simpl. apply lookup_delete_eq.
  - simpl. intros Heq. pose proof (lookup_delete_eq (pluginsMap s) x) as Hd.
    rewrite Heq in Hd. congruence.
  - simpl. unfold destroy_trace. set_solver.
Qed.

End RegisterFacts.

Section OverrideFacts.
Variable semverSatisfies : string → string → bool.
Variable ENGINE_VERSION : string.

Local Abbreviation register := (LowCodePluginManager.register semverSatisfies ENGINE_VERSION).
Local Abbreviation engine_check_failed :=
  (LowCodePluginManager.engine_check_failed semverSatisfies ENGINE_VERSION).

Lemma register_override_run creator options registerOptions s x r p :
  derive_pluginName creator = Some x → x ≠ "" →
  get x s = Some r → heap s !! r = Some p →
  effective_registerOptions options registerOptions ≫= override = Some true →
  engine_check_failed
    (engines_lowcodeEngine (default empty_meta (creator_meta creator))) = false →
  autoInit_requested options registerOptions = false
  ∨ cfg_init (creator_config creator) ≠ Some HookRejects →
  register creator options registerOptions s
  = (Resolved tt,
     after_override x r p (unit_of creator x)
       (autoInit_requested options registerOptions) s).
Proof.
  intros Hname Hne Hx Hp Hov Hgate Hauto. unfold get in Hx.
  set (newp := unit_of creator x).
  set (auto := autoInit_requested options registerOptions) in *.
  assert (Hlen : r < length (heap s)) by (eapply lookup_lt_Some; eauto).
  unfold LowCodePluginManager.register, bind.
  rewrite Hname. rewrite invariant_pluginName_truthy by done.
  unfold gets. simpl. rewrite Hx. rewrite Hov.
  rewrite bool_decide_eq_true_2 by done. simpl.
  unfold try_catch, bind. rewrite (plugin_destroy_run r p s Hp).
  rewrite Hgate.
  assert (Hrest : ∀ o, (let (o0, s') :=
      match o with
      | Resolved a => (Resolved a, with_heap_events (<[r:=after_destroy p]> (heap s))
                         (events s ++ destroy_trace r p) s)
      | Rejected e => ret () (with_heap_events (<[r:=after_destroy p]> (heap s))
                         (events s ++ destroy_trace r p) s)
      end in
      match o0 with
      | Resolved _ => set_pluginsMap (base.delete x (pluginsMap s)) s'
      | Rejected e => (Rejected e, s')
      end) = (Resolved tt, after_override_teardown x r p s)).
  { intros [[]|e]; reflexivity. }
  rewrite Hrest. clear Hrest. simpl.
  unfold alloc, bind, gets, set_heap, modify. simpl.
  rewrite length_insert.
  change (new_LowCodePlugin x (creator_config creator)
            (default empty_meta (creator_meta creator))) with newp.
  change (bool_decide (effective_registerOptions options registerOptions ≫= autoInit
                       = Some true)) with auto.
  unfold after_override.
  destruct auto eqn:Ha.
  - destruct Hauto as [?|Hinit]; [done|].
    erewrite plugin_init_run; last first.
    { simpl. rewrite lookup_app_r by (rewrite length_insert; lia).
      rewrite length_insert, Nat.sub_diag. reflexivity. }
    assert (init_resolves newp = true) as ->.
    { unfold init_resolves, newp. simpl.
      destruct (cfg_init (creator_config creator)) as [[]|]; done. }
    simpl. rewrite <- app_assoc. reflexivity.
  - simpl. rewrite app_nil_r. reflexivity.
Qed.

(** C8, as amended.  When a unit is registered under [x] and [register]
    derives [x] again with [override === true], the version gate passes, and
    [autoInit] is not set or the [init] hook of the new plugin does not fail,
    the call resolves; the first thing observed is [destroy()] of the original
    unit (which runs its [destroy] hook if it has one and was not destroyed
    before), ahead of anything the new unit does, and afterwards [get(x)]
    returns the new unit, a different object. *)
Theorem register_override_replaces
    (creator : PluginConfigCreator)
    (options registerOptions : option ILowCodeRegisterOptions)
    (s : State) (x : string) (r : ref) (p : LowCodePlugin) :
  derive_pluginName creator = Some x → x ≠ "" →
  get x s = Some r → heap s !! r = Some p →
  effective_registerOptions options registerOptions ≫= override = Some true →
  engine_check_failed
    (engines_lowcodeEngine (default empty_meta (creator_meta creator))) = false →
  autoInit_requested options registerOptions = false
  ∨ cfg_init (creator_config creator) ≠ Some HookRejects →
  ∃ s',
    register creator options registerOptions s = (Resolved tt, s')
    ∧ events s' = events s ++ destroy_trace r p
                  ++ (if autoInit_requested options registerOptions
                      then init_trace (length (heap s)) (unit_of creator x) else [])
    ∧ get x s' = Some (length (heap s)) ∧ length (heap s) ≠ r
    ∧ heap s' !! length (heap s)
      = Some (if autoInit_requested options registerOptions
              then after_init (unit_of creator x) else unit_of creator x)
    ∧ heap s' !! r = Some (after_destroy p).
Proof.
  intros Hname Hne Hx Hp Hov Hgate Hauto.
  set (newp := unit_of creator x).
  set (auto := autoInit_requested options registerOptions) in *.
  set (new := length (heap s)).
  assert (Hlen : r < length (heap s)) by (eapply lookup_lt_Some; eauto).
  exists (after_override x r p newp auto s).
  split; [by apply register_override_run|].
  split; [reflexivity|].
  split; [apply lookup_insert_eq|].
  split; [unfold new; lia|].
  unfold after_override; simpl. fold new. split.
  - destruct auto.
    + rewrite list_lookup_insert_eq; [done|].
      rewrite length_app, length_insert. simpl. unfold new. lia.
    + simpl. rewrite lookup_app_r by (rewrite length_insert; unfold new; lia).
      rewrite length_insert. unfold new. by rewrite Nat.sub_diag.
  - destruct auto; simpl.
    + rewrite list_lookup_insert_ne by (unfold new; lia).
      rewrite lookup_app_l by (by rewrite length_insert).
      by apply list_lookup_insert_eq.
    + rewrite lookup_app_l by (by rewrite length_insert).
      by apply list_lookup_insert_eq.
Qed.

(** C2, where the code departs from it.  A completed [register] with
    [override === true] for a registered name deletes the original unit from
    [pluginsMap] but leaves it in [plugins]: the map keeps its size, the array
    grows by one, so [pluginsMap.size == plugins.length] no longer holds, and
    the array still holds the original object while the map holds another one
    under its name. *)
Theorem register_override_leaves_stale_entry
    (creator : PluginConfigCreator)
    (options registerOptions : option ILowCodeRegisterOptions)
    (s : State) (x : string) (r : ref) (p : LowCodePlugin) :
  derive_pluginName creator = Some x → x ≠ "" →
  get x s = Some r → heap s !! r = Some p →
  effective_registerOptions options registerOptions ≫= override = Some true →
  effective_registerOptions options registerOptions ≫= autoInit ≠ Some true →
  engine_check_failed
    (engines_lowcodeEngine (default empty_meta (creator_meta creator))) = false →
  size s = length (getAll s) →
  ∃ s',
    register creator options registerOptions s = (Resolved tt, s')
    ∧ size s' = size s
    ∧ length (getAll s') = S (length (getAll s))
    ∧ size s' ≠ length (getAll s')
    ∧ (r ∈ getAll s → r ∈ getAll s' ∧ get x s' ≠ Some r).
Proof.
  intros Hname Hne Hx Hp Hov Hauto Hgate Hinv.
  assert (Hlen : r < length (heap s)) by (eapply lookup_lt_Some; eauto).
  eexists. split.
  { apply (register_override_run _ _ _ _ x r p); try done.
    left. by apply bool_decide_eq_false_2. }
  unfold autoInit_requested. rewrite bool_decide_eq_false_2 by done.
  unfold size, getAll, get in *. simpl.
  rewrite insert_delete_eq.
  rewrite map_size_insert_Some by eauto.
  rewrite length_app. simpl.
  repeat split; try lia.
  - set_solver.
  - rewrite lookup_insert_eq. intros [= ?]. lia.
Qed.

End OverrideFacts.

(** C8, the counterexample.  Override with [autoInit] of a plugin whose
    [init] hook fails: the version gate passes, the original unit is removed,
    the call rejects, and [get(x)] returns nothing afterwards. *)
Lemma override_always_installs_fails :
  ¬ override_always_installs sample_semverSatisfies "1.2.0".
Proof.
  intros H.
  destruct (H (sample_creator "x" [] None (Some HookRejects) None)
              override_autoInit_options None manager_with_x "x" 0 unit_x)
    as (r' & Hget & _); try done.
Qed.

(** C9.  On the proxy of the manager, by the entry [pluginsMap] has for the
    name read: when the name is registered to a unit that is not disabled, the
    read yields the proxy of that unit; when it is registered to a disabled
    unit, the read yields [undefined] while [has] answers [true] and [get] the
    unit; when no unit is registered under it, [has] answers [false], [get]
    nothing, and the read falls through to the manager itself; and
    [setDisabled(name, true)] on a registered name sets the flag of the unit
    and leaves it registered, so that afterwards the read yields [undefined]
    while [has] and [get] still report the unit. *)
Theorem toProxy_lookup (s : State) (prop : string) :
  pluginsMap_allocated s →
  (∀ r p, pluginsMap s !! prop = Some r → heap s !! r = Some p →
     disabled p = false →
     toProxy_get prop s = (Resolved (PVPluginProxy r), s)
     ∧ has prop s = true ∧ get prop s = Some r)
  ∧ (∀ r p, pluginsMap s !! prop = Some r → heap s !! r = Some p →
       disabled p = true →
       toProxy_get prop s = (Resolved PVUndefined, s)
       ∧ has prop s = true ∧ get prop s = Some r)
  ∧ (pluginsMap s !! prop = None →
       toProxy_get prop s = (Resolved (PVManagerMember prop), s)
       ∧ has prop s = false ∧ get prop s = None)
  ∧ (∀ r, pluginsMap s !! prop = Some r →
       ∃ s' p', setDisabled prop true s = (Resolved tt, s')
                ∧ pluginsMap s' !! prop = Some r
                ∧ heap s' !! r = Some p' ∧ disabled p' = true
                ∧ toProxy_get prop s' = (Resolved PVUndefined, s')
                ∧ has prop s' = true ∧ get prop s' = Some r).
Proof.
  intros Halloc. unfold get, has, toProxy_get, bind, gets, deref. simpl.
  split; [|split; [|split]].
  - intros r p Hr Hp Hd. rewrite Hr, Hp, Hd.
    split; [reflexivity|]. split; [|done]. by apply bool_decide_eq_true_2.
  - intros r p Hr Hp Hd. rewrite Hr, Hp, Hd.
    split; [reflexivity|]. split; [|done]. by apply bool_decide_eq_true_2.
  - intros Hno. rewrite Hno. split; [reflexivity|]. split; [|done].
    apply bool_decide_eq_false_2. by intros [? ?].
  - intros r Hr.
    pose proof (Halloc prop r Hr) as Hlt. simpl in Hlt.
    apply lookup_lt_is_Some_2 in Hlt as [p Hp].
    unfold setDisabled, plugin_setDisabled, update, bind, gets, deref, set_heap, modify.
    simpl. rewrite Hr, Hp. eexists _, (set_disabled true p).
    split; [reflexivity|]. simpl.
    rewrite Hr. simpl. rewrite list_lookup_insert_eq by (eapply lookup_lt_Some; eauto).
    simpl. done.
Qed.

Lemma for_of_app {A} (l1 l2 : list A) (body : A → M unit) s :
  for_of (l1 ++ l2) body s = (for_of l1 body ;; for_of l2 body) s.
Proof.
  revert s. induction l1 as [|x l1 IH]; intros s; simpl.
  - reflexivity.
  - unfold bind. destruct (body x s) as [[[]|e] s1]; [|reflexivity].
    rewrite IH. reflexivity.
Qed.

Lemma destroy_resolves_after p :
  destroy_resolves p = true → destroy_resolves (after_destroy p) = true.
Proof.
  unfold after_destroy, destroy_resolves.
  destruct (lifecycle p) eqn:Hl; rewrite ?Hl;
    destruct (cfg_destroy (config p)) as [[]|]; simpl; rewrite ?Hl; done.
Qed.

(** Tearing down a run of units none of which fails. *)
Lemma destroy_clean_run pre : ∀ s,
  Forall (destroys_cleanly (heap s)) pre →
  ∃ s' tr,
    for_of pre plugin_destroy s = (Resolved tt, s')
    ∧ events s' = events s ++ tr
    ∧ plugins s' = plugins s ∧ pluginsMap s' = pluginsMap s
    ∧ (∀ r, r ∉ pre → heap s' !! r = heap s !! r)
    ∧ Forall (teardown_event_of pre) tr
    ∧ omap (λ e, match e with EvCallDestroy r => Some r | _ => None end) tr = pre.
Proof.
  induction pre as [|r pre IH]; intros s Hall; simpl.
  - exists s, []. rewrite app_nil_r. repeat split; done.
  - inversion Hall as [|? ? (p & Hp & Hres) Hpre]; subst.
    unfold bind. rewrite (plugin_destroy_run r p s Hp), Hres. simpl.
    set (s1 := with_heap_events _ _ s).
    destruct (IH s1) as (s2 & tr & Hrun & Hev & Hps & Hm & Hheap & Htr & Hcalls).
    { eapply Forall_impl; [exact Hpre|]. intros r' (p' & Hp' & Hres'). simpl.
      destruct (decide (r' = r)) as [->|Hne].
      - exists (after_destroy p). split.
        + apply list_lookup_insert_eq. eapply lookup_lt_Some; eauto.
        + apply destroy_resolves_after. congruence.
      - exists p'. by rewrite list_lookup_insert_ne. }
    exists s2, (destroy_trace r p ++ tr). rewrite Hrun.
    split; [done|]. split; [rewrite Hev; symmetry; apply (app_assoc (events s))|].
    split; [done|]. split; [done|]. split; [|split].
    + intros r' Hr'. apply not_elem_of_cons in Hr' as [Hne Hr'].
      rewrite Hheap by done. simpl.
      by apply list_lookup_insert_ne.
    + apply Forall_app. split.
      * unfold destroy_trace.
        assert (Hc : teardown_event_of (r :: pre) (EvCallDestroy r)).
        { exists r. split; [apply elem_of_cons; by left | by left]. }
        assert (Hh : teardown_event_of (r :: pre) (EvHookDestroy r)).
        { exists r. split; [apply elem_of_cons; by left | by right]. }
        destruct (lifecycle p), (cfg_destroy (config p)); repeat constructor; done.
      * eapply Forall_impl; [exact Htr|]. intros e (r' & Hin & He). exists r'.
        split; [apply elem_of_cons; by right | done].
    + rewrite omap_app, Hcalls. unfold destroy_trace.
      destruct (lifecycle p), (cfg_destroy (config p)); reflexivity.
Qed.

(** C5, where the code departs from it.  In [dispose()] the first unit of
    the array whose [destroy()] rejects ends the teardown: [dispose()] rejects
    with that failure, only the units up to and including the failing one
    have had [destroy()] called or their hook run, and the registry is not
    cleared. *)
Theorem dispose_stops_at_first_failure
    (s : State) (pre post : list ref) (r : ref) (p : LowCodePlugin) :
  getAll s = pre ++ r :: post →
  Forall (destroys_cleanly (heap s)) pre →
  heap s !! r = Some p → destroy_resolves p = false →
  ∃ s' tr,
    dispose s = (Rejected (HookExecutionError r), s')
    ∧ events s' = events s ++ tr
    ∧ Forall (teardown_event_of (pre ++ [r])) tr
    ∧ (∀ r', (r' ∈ post) → (r' ∉ pre) → (r' ≠ r) →
         (EvCallDestroy r' ∉ tr) ∧ (EvHookDestroy r' ∉ tr))
    ∧ getAll s' = getAll s ∧ size s' = size s.
Proof.
  unfold getAll, size. intros Hps Hpre Hp Hres.
  cut (∃ s' tr,
    dispose s = (Rejected (HookExecutionError r), s')
    ∧ events s' = events s ++ tr
    ∧ Forall (teardown_event_of (pre ++ [r])) tr
    ∧ plugins s' = plugins s ∧ base.size (pluginsMap s') = base.size (pluginsMap s)).
  { intros (s' & tr & Hrun & Hev & Htr & Hrest). exists s', tr.
    split; [done|]. split; [done|]. split; [done|]. split; [|done].
    intros r' _ Hpre' Hne. rewrite Forall_forall in Htr.
    assert (Hnot : r' ∉ pre ++ [r]).
    { intros Hin. apply elem_of_app in Hin as [Hin|Hin]; [done|].
      by apply list_elem_of_singleton in Hin. }
    split; intros Hin; destruct (Htr _ Hin) as (r0 & Hr0 & [He|He]);
      simplify_eq; done. }
  assert (Hnotin : r ∉ pre).
  { intros Hin. rewrite Forall_forall in Hpre.
    destruct (Hpre r Hin) as (p' & Hp' & Hres'). congruence. }
  destruct (destroy_clean_run pre s Hpre)
    as (s1 & tr & Hrun & Hev & Hps1 & Hm1 & Hheap & Htr & _).
  assert (Hp1 : heap s1 !! r = Some p) by (by rewrite Hheap).
  exists (with_heap_events (<[r := after_destroy p]> (heap s1))
            (events s1 ++ destroy_trace r p) s1), (tr ++ destroy_trace r p).
  split.
  { unfold dispose, destroy. unfold bind at 1. unfold bind at 1. unfold gets at 1.
    simpl. rewrite Hps. rewrite for_of_app. unfold bind at 1. rewrite Hrun.
    simpl. unfold bind at 1. rewrite (plugin_destroy_run r p s1 Hp1), Hres.
    reflexivity. }
  split; [simpl; rewrite Hev; symmetry; apply app_assoc|].
  split; [|split; simpl; [by rewrite Hps1 | by rewrite Hm1]].
  apply Forall_app. split.
  - eapply Forall_impl; [exact Htr|]. intros e (r' & Hin & He). exists r'.
    split; [apply elem_of_app; by left | done].
  - assert (Hin : r ∈ pre ++ [r]).
    { apply elem_of_app. right. apply elem_of_cons. by left. }
    assert (Hc : teardown_event_of (pre ++ [r]) (EvCallDestroy r)).
    { exists r. split; [done | by left]. }
    assert (Hh : teardown_event_of (pre ++ [r]) (EvHookDestroy r)).
    { exists r. split; [done | by right]. }
    unfold destroy_trace.
    destruct (lifecycle p), (cfg_destroy (config p)); repeat constructor; done.
Qed.

(** When [dispose()] completes the registry is empty. *)
Lemma dispose_resolved_empties s s' :
  dispose s = (Resolved tt, s') → size s' = 0 ∧ getAll s' = [].
Proof.
  unfold dispose, bind. destruct (destroy s) as [[[]|e] s1]; [|done].
  simpl. intros [= <-]. done.
Qed.

(** When no [destroy()] fails, [dispose()] completes and has called
    [destroy()] on every unit of the array, in order. *)
Lemma dispose_clean s :
  Forall (destroys_cleanly (heap s)) (getAll s) →
  ∃ s' tr,
    dispose s = (Resolved tt, s')
    ∧ events s' = events s ++ tr
    ∧ omap (λ e, match e with EvCallDestroy r => Some r | _ => None end) tr = getAll s
    ∧ size s' = 0 ∧ getAll s' = [].
Proof.
  unfold getAll. intros Hall.
  destruct (destroy_clean_run (plugins s) s Hall)
    as (s1 & tr & Hrun & Hev & _ & _ & _ & _ & Hcalls).
  eexists _, tr. unfold dispose, destroy. unfold bind at 1. unfold bind at 1.
  unfold gets at 1. simpl. rewrite Hrun. simpl.
  split; [reflexivity|]. simpl. done.
Qed.

Module SequencifyFacts.
Import Sequencify.

Section Units.
Variable units : gmap string (list string).

Lemma prefix_nonempty {A} (l1 l2 : list A) : l1 `prefix_of` l2 → l1 ≠ [] → l2 ≠ [].
Proof. intros [k ->] H. destruct l1; [done|]. done. Qed.

Lemma prefix_elem {A} (l1 l2 : list A) x : l1 `prefix_of` l2 → x ∈ l1 → x ∈ l2.
Proof. intros [k ->] H. apply elem_of_app. by left. Qed.

Lemma visit_all_post (visit1 : SeqResult → string → option (bool * SeqResult)) :
  (∀ acc n ok acc', visit1 acc n = Some (ok, acc') → visit_post units acc [n] ok acc') →
  ∀ names acc ok acc',
    visit_all visit1 names acc = Some (ok, acc') → visit_post units acc names ok acc'.
Proof.
  intros Hone. induction names as [|n names IH]; intros acc ok acc' Hrun; simpl in Hrun.
  - injection Hrun as <- <-. repeat split; try done.
    intros _ n Hn. inversion Hn.
  - destruct (visit1 acc n) as [[ok1 acc1]|] eqn:H1; [|done].
    destruct (visit_all visit1 names acc1) as [[ok2 acc2]|] eqn:H2; [|done].
    injection Hrun as <- <-.
    destruct (Hone _ _ _ _ H1) as (Hs1 & Hm1 & Ho1 & Hin1 & Hmiss1).
    destruct (IH _ _ _ H2) as (Hs2 & Hm2 & Ho2 & Hin2 & Hmiss2).
    split; [by etrans|]. split; [by etrans|]. split; [auto|]. split.
    + intros Hok n' Hn'. apply andb_true_iff in Hok as [-> ->].
      apply elem_of_cons in Hn' as [->|Hn'].
      * apply (prefix_elem _ _ _ Hs2). apply Hin1; [done|]. apply elem_of_cons. by left.
      * by apply Hin2.
    + intros Hok. apply andb_false_iff in Hok as [->| ->].
      * apply (prefix_nonempty _ _ Hm2). by apply Hmiss1.
      * by apply Hmiss2.
Qed.

Lemma dependency_ordered_emit seq n deps :
  dependency_ordered units seq →
  units !! n = Some deps → (∀ d, d ∈ deps → d ∈ seq) →
  dependency_ordered units (seq ++ [n]).
Proof.
  intros Hord Hn Hdeps i m Hi.
  destruct (decide (i < length seq)) as [Hlt|Hge].
  - rewrite lookup_app_l in Hi by done.
    destruct (Hord i m Hi) as (ds & Hm & Hds). exists ds. split; [done|].
    intros d Hd. rewrite take_app_le by lia. by apply Hds.
  - rewrite lookup_app_r in Hi by lia.
    destruct (i - length seq) as [|k] eqn:Hk; simpl in Hi; [|done].
    injection Hi as <-. exists deps. split; [done|].
    intros d Hd. rewrite take_app_ge by lia.
    apply elem_of_app. left. by apply Hdeps.
Qed.

Lemma visit_post_holds fuel : ∀ visiting acc n ok acc',
  visit fuel units visiting acc n = Some (ok, acc') →
  visit_post units acc [n] ok acc'.
Proof.
  induction fuel as [|fuel IH]; intros visiting acc n ok acc' Hrun; simpl in Hrun; [done|].
  case_bool_decide as Hseen.
  { injection Hrun as <- <-. repeat split; try done.
    intros _ m Hm. apply list_elem_of_singleton in Hm as ->. done. }
  destruct (units !! n) as [deps|] eqn:Hn.
  2:{ injection Hrun as <- <-. repeat split; try done.
      - by apply prefix_app_r.
      - simpl. by destruct (missingTasks acc). }
  case_bool_decide as Hvisiting.
  { injection Hrun as <- <-. repeat split; try done.
    - by apply prefix_app_r.
    - simpl. by destruct (missingTasks acc). }
  destruct (visit_all (visit fuel units (n :: visiting)) deps acc) as [[b acc1]|] eqn:Hall;
    [|done].
  pose proof (visit_all_post _ (IH (n :: visiting)) _ _ _ _ Hall)
    as (Hs & Hm & Ho & Hin & Hmiss).
  destruct b; injection Hrun as <- <-.
  - split; [simpl; by apply prefix_app_r|]. split; [done|]. split; [|split; [|done]].
    + intros Hord. simpl. apply (dependency_ordered_emit _ _ deps); auto.
    + intros _ m Hm'. apply list_elem_of_singleton in Hm' as ->. simpl.
      apply elem_of_app. right. apply elem_of_cons. by left.
  - split; [done|]. split; [done|]. split; [done|]. split; [done|]. auto.
Qed.

Lemma visit_all_total (visit1 : SeqResult → string → option (bool * SeqResult)) :
  (∀ acc n, is_Some (visit1 acc n)) →
  ∀ names acc, is_Some (visit_all visit1 names acc).
Proof.
  intros Hone. induction names as [|n names IH]; intros acc; simpl; [eauto|].
  destruct (Hone acc n) as [[ok1 acc1] ->].
  destruct (IH acc1) as [[ok2 acc2] ->]. eauto.
Qed.

Lemma visiting_bounded (visiting : list string) :
  NoDup visiting → (∀ v, v ∈ visiting → is_Some (units !! v)) →
  (length visiting ≤ base.size units)%nat.
Proof.
  intros Hnd Hsub.
  rewrite <- (size_dom (D := gset string)).
  rewrite <- (size_list_to_set (C := gset string) visiting) by done.
  apply subseteq_size. intros v Hv. apply elem_of_list_to_set in Hv.
  apply elem_of_dom. auto.
Qed.

(** Enough fuel gives a result. *)
Lemma visit_total fuel : ∀ visiting acc n,
  NoDup visiting → (∀ v, v ∈ visiting → is_Some (units !! v)) →
  base.size units < fuel + length visiting →
  is_Some (visit fuel units visiting acc n).
Proof.
  induction fuel as [|fuel IH]; intros visiting acc n Hnd Hsub Hfuel.
  - pose proof (visiting_bounded visiting Hnd Hsub). simpl in Hfuel. lia.
  - simpl. case_bool_decide; [eauto|].
    destruct (units !! n) as [deps|] eqn:Hn; [|eauto].
    case_bool_decide as Hvis; [eauto|].
    destruct (visit_all_total (visit fuel units (n :: visiting))) with (names := deps) (acc := acc)
      as [[[] acc1] ->]; [|eauto..].
    intros acc0 m. apply IH.
    + by constructor.
    + intros v Hv. apply elem_of_cons in Hv as [->|Hv]; eauto.
    + simpl. lia.
Qed.

Lemma sequencify_fuel_enough names :
  sequencify_fuel (S (base.size units)) units names = Some (sequencify units names).
Proof.
  unfold sequencify.
  destruct (visit_all_total (visit (S (base.size units)) units []))
    with (names := names) (acc := empty_result) as [[ok res] Hrun].
  { intros acc n. apply visit_total.
    - constructor.
    - intros v Hv. inversion Hv.
    - simpl. lia. }
  unfold sequencify_fuel. rewrite Hrun. reflexivity.
Qed.

Lemma sequencify_post names :
  ∃ ok, visit_post units empty_result names ok (sequencify units names).
Proof.
  pose proof (sequencify_fuel_enough names) as Hrun.
  unfold sequencify_fuel in Hrun.
  destruct (visit_all _ names empty_result) as [[ok res]|] eqn:Hall; [|done].
  injection Hrun as <-. exists ok.
  eapply visit_all_post; [|exact Hall].
  apply visit_post_holds.
Qed.

(** The sequence the sequencer returns is ordered by dependency. *)
Lemma sequencify_ordered names :
  dependency_ordered units (sequence (sequencify units names)).
Proof.
  destruct (sequencify_post names) as (ok & _ & _ & Hord & _).
  apply Hord. intros i n Hi. done.
Qed.

(** A name that takes part in a two-unit cycle (or whose dependency is
    absent) cannot occur in a sequence ordered by dependency. *)
Lemma cycle_member_not_ordered seq a b da :
  dependency_ordered units seq →
  units !! a = Some da → b ∈ da →
  (∀ db, units !! b = Some db → a ∈ db) →
  a ∉ seq.
Proof.
  intros Hord Ha Hb Hba Hin.
  apply list_elem_of_lookup in Hin as [i Hi].
  revert Hi. induction (lt_wf i) as [i _ IH]. intros Hi.
  destruct (Hord i a Hi) as (da' & Ha' & Hdeps).
  assert (da' = da) as -> by congruence.
  apply Hdeps in Hb. apply list_elem_of_lookup in Hb as [j Hj].
  apply lookup_take_Some in Hj as [Hj Hji].
  destruct (Hord j b Hj) as (db & Hb' & Hdepsb).
  pose proof (Hdepsb a (Hba db Hb')) as Hak.
  apply list_elem_of_lookup in Hak as [k Hk].
  apply lookup_take_Some in Hk as [Hk Hkj].
  apply (IH k); [lia|done].
Qed.

(** A requested name on a cycle makes the sequencer report missing tasks. *)
Lemma sequencify_reports_cycle names a b da :
  a ∈ names →
  units !! a = Some da → b ∈ da →
  (∀ db, units !! b = Some db → a ∈ db) →
  missingTasks (sequencify units names) ≠ [].
Proof.
  intros Hin Ha Hb Hba.
  destruct (sequencify_post names) as (ok & _ & _ & Hord & Hok & Hmiss).
  destruct ok; [|by apply Hmiss].
  exfalso.
  apply (cycle_member_not_ordered (sequence (sequencify units names)) a b da);
    [apply sequencify_ordered | done | done | done | by apply Hok].
Qed.

End Units.
End SequencifyFacts.

Lemma collected_names h ps : ∀ names obj n,
  (n ∈ names ∨ ∃ r p, r ∈ ps ∧ h !! r = Some p ∧ name p = n) →
  Forall (λ r, r < length h) ps →
  n ∈ (collected h ps names obj).1.
Proof.
  induction ps as [|r ps IH]; intros names obj n Hn Hall; simpl.
  - destruct Hn as [Hn|(r & p & Hr & _)]; [done|inversion Hr].
  - inversion Hall as [|? ? Hr Hps]; subst.
    apply lookup_lt_is_Some_2 in Hr as [p Hp]. rewrite Hp.
    apply IH; [|done].
    destruct Hn as [Hn|(r' & p' & Hr' & Hp' & Hname)].
    + left. apply elem_of_app. by left.
    + apply elem_of_cons in Hr' as [->|Hr'].
      * left. apply elem_of_app. right. apply elem_of_cons. left. congruence.
      * right. eauto.
Qed.

Lemma collected_obj_defined h ps : ∀ names obj n,
  (is_Some (obj !! n) ∨ ∃ r p, r ∈ ps ∧ h !! r = Some p ∧ name p = n) →
  Forall (λ r, r < length h) ps →
  is_Some ((collected h ps names obj).2 !! n).
Proof.
  induction ps as [|r ps IH]; intros names obj n Hn Hall; simpl.
  - destruct Hn as [Hn|(r & p & Hr & _)]; [done|inversion Hr].
  - inversion Hall as [|? ? Hr Hps]; subst.
    apply lookup_lt_is_Some_2 in Hr as [p Hp]. rewrite Hp.
    apply IH; [|done].
    destruct Hn as [Hn|(r' & p' & Hr' & Hp' & Hname)].
    + left. destruct (decide (name p = n)) as [->|Hne].
      * rewrite lookup_insert_eq. eauto.
      * by rewrite lookup_insert_ne.
    + apply elem_of_cons in Hr' as [->|Hr'].
      * left. assert (p' = p) as -> by congruence. subst n.
        rewrite lookup_insert_eq. eauto.
      * right. eauto.
Qed.

Lemma collected_obj_sound h ps : ∀ names obj n r,
  (collected h ps names obj).2 !! n = Some r →
  obj !! n = Some r ∨ ∃ p, r ∈ ps ∧ h !! r = Some p ∧ name p = n.
Proof.
  induction ps as [|r0 ps IH]; intros names obj n r Hr; simpl in Hr.
  - by left.
  - destruct (h !! r0) as [p0|] eqn:Hp0; [|by left].
    apply IH in Hr as [Hr|(p & Hin & Hp & Hname)].
    + destruct (decide (name p0 = n)) as [Heq|Hne].
      * subst n. rewrite lookup_insert_eq in Hr. injection Hr as <-.
        right. exists p0. split; [apply elem_of_cons; by left|done].
      * rewrite lookup_insert_ne in Hr by done. by left.
    + right. exists p. split; [apply elem_of_cons; by right|done].
Qed.

(** C6.  When units named [a] and [b] are registered, every unit named [a]
    declares a dependency on [b] and every unit named [b] one on [a], [init()]
    rejects with the dependency error carrying a non-empty list of missing
    tasks, and no [init()] is called and no hook runs. *)
Theorem init_rejects_dependency_cycle (s : State)
    (pref : option (gmap string (gmap string PreferenceValueType)))
    (a b : string) :
  plugins_allocated s →
  (∃ r p, registered_as s a r p) →
  (∃ r p, registered_as s b r p) →
  declares_dependency s a b →
  declares_dependency s b a →
  ∃ missing s',
    init Sequencify.sequencify pref s = (Rejected (MissingDependencyError missing), s')
    ∧ missing ≠ []
    ∧ events s' = events s
    ∧ heap s' = heap s.
Proof.
  intros Hall (ra & pa & Hra) _ Hab Hba.
  exists (missingTasks (init_sequencing Sequencify.sequencify s)),
         (with_pluginPreference pref s).
  assert (Hmiss : missingTasks (init_sequencing Sequencify.sequencify s) ≠ []).
  { unfold init_sequencing.
    set (c := collected (heap s) (plugins s) [] ∅).
    assert (Hobj : is_Some (c.2 !! a)).
    { apply collected_obj_defined; [|done]. right.
      destruct Hra as (? & ? & ?). eauto. }
    destruct Hobj as [r' Hr'].
    pose proof (collected_obj_sound _ _ _ _ _ _ Hr') as [Hempty|(p' & Hin & Hp' & Hname)].
    { by rewrite lookup_empty in Hempty. }
    apply (SequencifyFacts.sequencify_reports_cycle _ _ a b (plugin_dep p')).
    - apply collected_names; [|done]. right.
      destruct Hra as (? & ? & ?). eauto.
    - unfold tasks_of. rewrite lookup_omap, Hr'. simpl. by rewrite Hp'.
    - apply (Hab r' p'). done.
    - intros db Hdb. unfold tasks_of in Hdb. rewrite lookup_omap in Hdb.
      destruct (c.2 !! b) as [rb|] eqn:Hrb; [|done]. simpl in Hdb.
      destruct (heap s !! rb) as [pb|] eqn:Hpb; [|done]. simpl in Hdb.
      injection Hdb as <-.
      pose proof (collected_obj_sound _ _ _ _ _ _ Hrb) as [Hempty|(pb' & Hinb & Hpb' & Hnameb)].
      { by rewrite lookup_empty in Hempty. }
      assert (pb' = pb) as -> by congruence.
      apply (Hba rb pb). done. }
  rewrite init_unfold by done.
  unfold bind, invariant. rewrite bool_decide_eq_false_2 by done. done.
Qed.

Lemma unit_stable_registry_of : unit_stable registry_of.
Proof.
  intros s h ev Hn. unfold registry_of, heap_names. simpl. by rewrite Hn.
Qed.

Lemma consistent_registry_of s s' :
  registry_of s' = registry_of s → consistent s → consistent s'.
Proof.
  unfold registry_of, consistent. intros [= -> -> ->]. done.
Qed.

Lemma consistent_intro s ps m hn :
  plugins s = ps → pluginsMap s = m → heap_names s = hn →
  NoDup ps →
  (∀ r, r ∈ ps → is_Some (hn !! r)) →
  (∀ r1 r2 n, r1 ∈ ps → r2 ∈ ps → hn !! r1 = Some n → hn !! r2 = Some n → r1 = r2) →
  (∀ n r, m !! n = Some r ↔ r ∈ ps ∧ hn !! r = Some n) →
  consistent s.
Proof. intros <- <- <-. unfold consistent. done. Qed.

Lemma consistent_empty : consistent empty_manager.
Proof.
  unfold consistent; simpl. split; [constructor|].
  split; [intros r Hr; inversion Hr|].
  split; [intros r1 r2 n Hr; inversion Hr|].
  intros n r. rewrite lookup_empty. split; [done|]. intros [Hr _]. inversion Hr.
Qed.

Lemma registry_size (hn : list string) : ∀ (ps : list nat) (m : gmap string nat),
  NoDup ps →
  (∀ r, r ∈ ps → is_Some (hn !! r)) →
  (∀ r1 r2 n, r1 ∈ ps → r2 ∈ ps → hn !! r1 = Some n → hn !! r2 = Some n → r1 = r2) →
  (∀ n r, m !! n = Some r ↔ r ∈ ps ∧ hn !! r = Some n) →
  base.size m = length ps.
Proof.
  induction ps as [|r0 ps IH]; intros m Hnd Halloc Hinj Hmap.
  - assert (m = ∅) as ->; [|by rewrite map_size_empty].
    apply map_empty. intros n. destruct (m !! n) as [r|] eqn:Hr; [|done].
    apply Hmap in Hr as [Hr _]. inversion Hr.
  - apply NoDup_cons in Hnd as [Hr0 Hnd].
    destruct (Halloc r0) as [n0 Hn0]; [apply elem_of_cons; by left|].
    assert (Hm0 : m !! n0 = Some r0).
    { apply Hmap. split; [apply elem_of_cons; by left|done]. }
    rewrite <- (insert_delete_id m n0 r0 Hm0).
    rewrite map_size_insert_None by apply lookup_delete_eq.
    simpl. f_equal. apply IH; [done|..].
    + intros r Hr. apply Halloc, elem_of_cons. by right.
    + intros r1 r2 n H1 H2. apply Hinj; apply elem_of_cons; by right.
    + intros n r. split.
      * intros Hd. apply lookup_delete_Some in Hd as [Hne Hd].
        apply Hmap in Hd as [Hin Hn]. split; [|done].
        apply elem_of_cons in Hin as [->|Hin]; [|done]. congruence.
      * intros [Hin Hn]. apply lookup_delete_Some. split.
        -- intros <-. apply Hr0.
           rewrite (Hinj r0 r n0); [done|apply elem_of_cons; by left
                                    |apply elem_of_cons; by right|done..].
        -- apply Hmap. split; [apply elem_of_cons; by right|done].
Qed.

(** In a consistent registry the size of the map is the length of the array,
    and a name of the map leads to the one entry of the array of that name. *)
Lemma consistent_size s : consistent s → size s = length (getAll s).
Proof.
  intros (Hnd & Halloc & Hinj & Hmap). by apply (registry_size (heap_names s)).
Qed.

Lemma consistent_same_object s n r :
  consistent s → get n s = Some r →
  r ∈ getAll s ∧ name <$> heap s !! r = Some n
  ∧ ∀ r', r' ∈ getAll s → name <$> heap s !! r' = Some n → r' = r.
Proof.
  intros (Hnd & Halloc & Hinj & Hmap) Hget. unfold get, getAll in *.
  apply Hmap in Hget as [Hin Hn]. unfold heap_names in *.
  rewrite list_lookup_fmap in Hn. repeat split; try done.
  intros r' Hin' Hn'. apply (Hinj r' r n); try done.
  all: by rewrite list_lookup_fmap.
Qed.

Lemma init_consistent sequencify pref s :
  consistent s → consistent (init sequencify pref s).2.
Proof.
  apply consistent_registry_of.
  unfold init, set_pluginPreference. rewrite bind_modify.
  match goal with
  | |- registry_of (?m ?s1).2 = _ =>
      transitivity (registry_of s1); [|reflexivity];
      generalize s1; change (preserves registry_of m)
  end.
  apply preserves_bind; [apply preserves_gets|intros ps].
  apply preserves_bind; [apply collect_preserves|intros c].
  apply preserves_bind; [apply preserves_gets|intros h].
  apply preserves_bind; [apply preserves_invariant|intros _].
  apply preserves_for_of. intros n. apply init_one_stable.
  apply unit_stable_registry_of.
Qed.

Lemma destroy_preserves_registry : preserves registry_of destroy.
Proof.
  unfold destroy. apply preserves_bind; [apply preserves_gets|intros ps].
  apply preserves_for_of. intros r. apply plugin_destroy_stable.
  apply unit_stable_registry_of.
Qed.

Lemma destroy_consistent s : consistent s → consistent (destroy s).2.
Proof. apply consistent_registry_of. apply destroy_preserves_registry. Qed.

Lemma setDisabled_consistent n flag s :
  consistent s → consistent (setDisabled n flag s).2.
Proof.
  apply consistent_registry_of. revert s.
  change (preserves registry_of (setDisabled n flag)).
  unfold setDisabled. apply preserves_bind; [apply preserves_gets|intros m].
  destruct (m !! n); [|apply preserves_ret].
  apply update_stable; [done|apply unit_stable_registry_of].
Qed.

Lemma dispose_consistent s : consistent s → consistent (dispose s).2.
Proof.
  intros Hc. unfold dispose, bind.
  pose proof (destroy_consistent s Hc) as Hd.
  destruct (destroy s) as [[[]|e] s1]; [|done]. simpl.
  unfold consistent; simpl. split; [constructor|].
  split; [intros r Hr; inversion Hr|].
  split; [intros r1 r2 n Hr; inversion Hr|].
  intros n r. rewrite lookup_empty. split; [done|]. intros [Hr _]. inversion Hr.
Qed.

Lemma findIndex_Some {A} (pred : A → bool) (l : list A) idx :
  findIndex pred l = Some idx → ∃ x, l !! idx = Some x ∧ pred x = true.
Proof.
  revert idx. induction l as [|x l IH]; intros idx H; simpl in H; [done|].
  destruct (pred x) eqn:Hx.
  - injection H as <-. eauto.
  - destruct (findIndex pred l) as [i|]; [|done]. injection H as <-.
    simpl. by apply IH.
Qed.

Lemma splice1_spec {A} (l : list A) idx x :
  NoDup l → l !! idx = Some x →
  NoDup (splice1 l idx) ∧ ∀ y, y ∈ splice1 l idx ↔ y ∈ l ∧ y ≠ x.
Proof.
  intros Hnd Hx. unfold splice1.
  pose proof (take_drop_middle _ _ _ Hx) as Hsplit.
  revert Hsplit. generalize (take idx l) (drop (S idx) l). intros l1 l2 <-.
  apply NoDup_app in Hnd as (Hnd1 & Hdisj & Hnd2).
  apply NoDup_cons in Hnd2 as [Hx2 Hnd2].
  split.
  - apply NoDup_app. split; [done|]. split; [|done].
    intros y H1 H2. apply (Hdisj y H1). apply elem_of_cons. by right.
  - intros y. rewrite !elem_of_app, elem_of_cons. split.
    + intros [H1|H2].
      * split; [by left|]. intros ->. apply (Hdisj x H1). apply elem_of_cons. by left.
      * split; [right; by right|]. intros ->. done.
    + intros [[H1|[->|H2]] Hne]; [by left|done|by right].
Qed.

Lemma delete_consistent n s : consistent s → consistent (delete n s).2.
Proof.
  intros Hc. unfold delete. unfold bind at 1, gets at 1. simpl.
  unfold bind at 1, gets at 1. simpl.
  destruct (findIndex _ (plugins s)) as [idx|] eqn:Hidx; [|done].
  apply findIndex_Some in Hidx as (r & Hr & Hpred).
  apply bool_decide_eq_true in Hpred. rewrite Hr.
  unfold bind at 1.
  pose proof (plugin_destroy_stable registry_of r unit_stable_registry_of s) as Hreg.
  destruct (plugin_destroy r s) as [[[]|e] s1].
  2:{ simpl in *. by apply (consistent_registry_of s). }
  simpl in Hreg. unfold registry_of in Hreg. injection Hreg as Hps Hm Hhn.
  unfold bind, gets, set_plugins, set_pluginsMap, modify, ret. simpl.
  destruct Hc as (Hnd & Halloc & Hinj & Hmap).
  assert (Hrn : heap_names s !! r = Some n).
  { unfold heap_names. by rewrite list_lookup_fmap. }
  destruct (splice1_spec _ _ _ Hnd Hr) as [Hnd' Hmem].
  apply (consistent_intro _ (splice1 (plugins s) idx) (base.delete n (pluginsMap s))
           (heap_names s)); [simpl; congruence|simpl; congruence|exact Hhn|..].
  - done.
  - intros r' Hr'. apply Hmem in Hr' as [Hr' _]. by apply Halloc.
  - intros r1 r2 n' H1 H2. apply Hmem in H1 as [H1 _]. apply Hmem in H2 as [H2 _].
    by apply Hinj.
  - intros n' r'. rewrite lookup_delete_Some, Hmap, Hmem. split.
    + intros (Hne & Hin & Hn'). split; [|done]. split; [done|]. intros ->. congruence.
    + intros ((Hin & Hne) & Hn'). split; [|done]. intros <-.
      apply Hne. apply (Hinj r' r n); try done.
      by apply list_elem_of_lookup_2 in Hr.
Qed.

Lemma consistent_alloc ps m h p :
  consistent {| plugins := ps; pluginsMap := m; pluginPreference := None;
                heap := h; events := [] |} →
  consistent {| plugins := ps; pluginsMap := m; pluginPreference := None;
                heap := h ++ [p]; events := [] |}.
Proof.
  unfold consistent, heap_names; simpl. intros (Hnd & Halloc & Hinj & Hmap).
  assert (Hlook : ∀ r, r ∈ ps → (name <$> h ++ [p]) !! r = (name <$> h) !! r).
  { intros r Hr. rewrite fmap_app. apply lookup_app_l.
    destruct (Halloc r Hr) as [n Hn]. by eapply lookup_lt_Some. }
  split; [done|]. split; [|split].
  - intros r Hr. rewrite Hlook by done. by apply Halloc.
  - intros r1 r2 n H1 H2. rewrite !Hlook by done. by apply Hinj.
  - intros n r. rewrite Hmap. split; intros [Hin Hn]; (split; [done|]).
    + by rewrite Hlook.
    + by rewrite <- Hlook.
Qed.

(** Registration keeps the invariant whenever it does not replace a unit:
    the name is new, or no override was asked for. *)
Lemma register_consistent semverSatisfies ENGINE_VERSION
    creator options registerOptions s :
  consistent s →
  (∀ x, derive_pluginName creator = Some x →
        get x s = None
        ∨ effective_registerOptions options registerOptions ≫= override ≠ Some true) →
  consistent (register semverSatisfies ENGINE_VERSION creator options registerOptions s).2.
Proof.
  intros Hc Hcase.
  destruct (truthy (derive_pluginName creator)) eqn:Htruthy.
  2:{ by rewrite register_without_name. }
  destruct (derive_pluginName creator) as [x|] eqn:Hname; [|done].
  assert (Hne : x ≠ "").
  { intros ->. by vm_compute in Htruthy. }
  unfold get in Hcase.
  destruct (pluginsMap s !! x) as [r|] eqn:Hx.
  { destruct (Hcase x eq_refl) as [?|Hov]; [congruence|].
    by rewrite (register_duplicate_run semverSatisfies ENGINE_VERSION
                  creator options registerOptions s x r). }
  unfold register, bind. rewrite Hname, invariant_pluginName_truthy by done.
  unfold gets. simpl. rewrite Hx. simpl.
  destruct (engine_check_failed _ _ _); [done|]. simpl.
  unfold alloc, bind, gets, set_heap, modify. simpl.
  set (newp := new_LowCodePlugin x _ _).
  set (s1 := {| plugins := plugins s; pluginsMap := pluginsMap s;
                pluginPreference := pluginPreference s;
                heap := heap s ++ [newp]; events := events s |}).
  assert (Hc1 : consistent s1).
  { apply (consistent_registry_of
             {| plugins := plugins s; pluginsMap := pluginsMap s;
                pluginPreference := None; heap := heap s ++ [newp]; events := [] |});
      [reflexivity|].
    apply consistent_alloc.
    by apply (consistent_registry_of s). }
  assert (Hfinal : ∀ s2, registry_of s2 = registry_of s1 →
    consistent {| plugins := plugins s2 ++ [length (heap s)];
                  pluginsMap := <[x := length (heap s)]> (pluginsMap s2);
                  pluginPreference := pluginPreference s2;
                  heap := heap s2; events := events s2 |}).
  { intros s2 Hreg. unfold registry_of in Hreg. injection Hreg as Hps Hm Hhn.
    destruct Hc1 as (Hnd & Halloc & Hinj & Hmap).
    assert (Hnew : heap_names s1 !! length (heap s) = Some x).
    { unfold heap_names, s1. simpl. rewrite fmap_app.
      rewrite lookup_app_r by (by rewrite length_fmap).
      by rewrite length_fmap, Nat.sub_diag. }
    assert (Hfresh : length (heap s) ∉ plugins s).
    { intros Hin. destruct Hc as (_ & Halloc0 & _). destruct (Halloc0 _ Hin) as [n Hn].
      apply lookup_lt_Some in Hn. unfold heap_names in Hn.
      rewrite length_fmap in Hn. lia. }
    assert (Hnox : ∀ r, r ∈ plugins s → heap_names s1 !! r ≠ Some x).
    { intros r Hr Hn. assert (pluginsMap s !! x = Some r); [|congruence].
      apply (Hmap x r). done. }
    apply (consistent_intro _ (plugins s ++ [length (heap s)])
             (<[x := length (heap s)]> (pluginsMap s)) (heap_names s1));
      [simpl; by rewrite Hps|simpl; by rewrite Hm|exact Hhn|..].
    - apply NoDup_app. split; [done|]. split; [|apply NoDup_singleton].
      intros r Hr Hr'. apply list_elem_of_singleton in Hr' as ->. done.
    - intros r Hr. apply elem_of_app in Hr as [Hr|Hr]; [by apply Halloc|].
      apply list_elem_of_singleton in Hr as ->. eauto.
    - intros r1 r2 n H1 H2 Hn1 Hn2.
      apply elem_of_app in H1 as [H1|H1]; apply elem_of_app in H2 as [H2|H2].
      + by apply (Hinj r1 r2 n).
      + apply list_elem_of_singleton in H2 as ->.
        exfalso. apply (Hnox r1 H1). congruence.
      + apply list_elem_of_singleton in H1 as ->.
        exfalso. apply (Hnox r2 H2). congruence.
      + apply list_elem_of_singleton in H1 as ->.
        by apply list_elem_of_singleton in H2 as ->.
    - intros n r. destruct (decide (n = x)) as [->|Hnx].
      + rewrite lookup_insert_eq. split.
        * intros [= <-]. split; [|done]. apply elem_of_app. right.
          by apply list_elem_of_singleton.
        * intros [Hin Hn]. apply elem_of_app in Hin as [Hin|Hin].
          -- exfalso. by apply (Hnox r Hin).
          -- by apply list_elem_of_singleton in Hin as ->.
      + rewrite lookup_insert_ne by done.
        change (pluginsMap s) with (pluginsMap s1). rewrite Hmap. split.
        * intros [Hin Hn]. split; [|done]. apply elem_of_app. by left.
        * intros [Hin Hn]. split; [|done].
          apply elem_of_app in Hin as [Hin|Hin]; [done|].
          apply list_elem_of_singleton in Hin as ->. congruence. }
  fold s1.
  destruct (bool_decide (effective_registerOptions options registerOptions ≫= autoInit
                         = Some true)).
  - pose proof (plugin_init_stable registry_of (length (heap s))
                  unit_stable_registry_of s1) as Hreg.
    destruct (plugin_init (length (heap s)) s1) as [[[]|e] s2]; simpl in Hreg.
    + exact (Hfinal s2 Hreg).
    + by apply (consistent_registry_of s1).
  - exact (Hfinal s1 eq_refl).
Qed.


(** * The statements at sample managers

    Each statement above that has hypotheses is applied here to a manager built
    by registering sample plugins on a new manager. *)

Lemma register_override_then_gate_failure_witness :
  register sample_semverSatisfies "1.2.0"
    (sample_creator "x" [] (Some "^2.0.0") None None) override_options None
    manager_with_x
  = (Rejected (IncompatibleVersionError "x"),
     after_override_teardown "x" 0 unit_x manager_with_x)
  ∧ get "x" (after_override_teardown "x" 0 unit_x manager_with_x) = None
  ∧ pluginsMap (after_override_teardown "x" 0 unit_x manager_with_x)
    ≠ pluginsMap manager_with_x
  ∧ EvCallDestroy 0 ∈ events (after_override_teardown "x" 0 unit_x manager_with_x).
Proof.
  apply (register_override_then_gate_failure sample_semverSatisfies "1.2.0");
    [reflexivity | discriminate | reflexivity | reflexivity | reflexivity
    | vm_compute; reflexivity].
Defined.

Lemma register_override_leaves_stale_entry_witness :
  ∃ s',
    register sample_semverSatisfies "1.2.0"
      (sample_creator "x" [] None None None) override_options None manager_with_x
    = (Resolved tt, s')
    ∧ size s' = size manager_with_x
    ∧ length (getAll s') = S (length (getAll manager_with_x))
    ∧ size s' ≠ length (getAll s')
    ∧ (0 ∈ getAll manager_with_x → 0 ∈ getAll s' ∧ get "x" s' ≠ Some 0).
Proof.
  apply (register_override_leaves_stale_entry sample_semverSatisfies "1.2.0"
           _ _ _ _ "x" 0 unit_x);
    [reflexivity | discriminate | reflexivity | reflexivity | reflexivity
    | discriminate | reflexivity | vm_compute; reflexivity].
Defined.

Lemma init_isolates_unit_failures_witness :
  ∃ s' tr,
    init Sequencify.sequencify None manager_failing_init = (Resolved tt, s')
    ∧ events s' = events manager_failing_init ++ tr
    ∧ init_calls tr
      = omap (λ n, pluginsMap manager_failing_init !! n)
          (sequence (init_sequencing Sequencify.sequencify manager_failing_init))
    ∧ (∀ n r,
         n ∈ sequence (init_sequencing Sequencify.sequencify manager_failing_init) →
         pluginsMap manager_failing_init !! n = Some r →
         fails_init manager_failing_init r → EvLogError n ∈ tr).
Proof.
  apply (init_isolates_unit_failures Sequencify.sequencify manager_failing_init None);
    [repeat constructor | vm_compute; reflexivity].
Defined.

Lemma init_missing_dependency_aborts_witness :
  init Sequencify.sequencify None manager_with_ghost_dependency
  = (Rejected (MissingDependencyError
                 (missingTasks (init_sequencing Sequencify.sequencify
                                  manager_with_ghost_dependency))),
     with_pluginPreference None manager_with_ghost_dependency)
  ∧ events (init Sequencify.sequencify None manager_with_ghost_dependency).2
    = events manager_with_ghost_dependency
  ∧ heap (init Sequencify.sequencify None manager_with_ghost_dependency).2
    = heap manager_with_ghost_dependency.
Proof.
  apply (init_missing_dependency_aborts Sequencify.sequencify
           manager_with_ghost_dependency None);
    [repeat constructor | vm_compute; discriminate].
Defined.

Lemma dispose_stops_at_first_failure_witness :
  ∃ s' tr,
    dispose manager_failing_destroy = (Rejected (HookExecutionError 0), s')
    ∧ events s' = events manager_failing_destroy ++ tr
    ∧ Forall (teardown_event_of ([] ++ [0])) tr
    ∧ (∀ r', (r' ∈ [1]) → (r' ∉ []) → (r' ≠ 0) →
         (EvCallDestroy r' ∉ tr) ∧ (EvHookDestroy r' ∉ tr))
    ∧ getAll s' = getAll manager_failing_destroy
    ∧ size s' = size manager_failing_destroy.
Proof.
  apply (dispose_stops_at_first_failure manager_failing_destroy [] [1] 0
           unit_failing_destroy);
    [reflexivity | constructor | reflexivity | reflexivity].
Defined.

Lemma init_rejects_dependency_cycle_witness :
  ∃ missing s',
    init Sequencify.sequencify None manager_with_cycle
    = (Rejected (MissingDependencyError missing), s')
    ∧ missing ≠ []
    ∧ events s' = events manager_with_cycle
    ∧ heap s' = heap manager_with_cycle.
Proof.
  apply (init_rejects_dependency_cycle manager_with_cycle None "a" "b").
  - repeat constructor.
  - exists 0. eexists. split; [by left|]. split; reflexivity.
  - exists 1. eexists. split; [right; by left|]. split; reflexivity.
  - intros r p (Hin & Hp & Hn). vm_compute in Hin.
    apply elem_of_cons in Hin as [->|Hin].
    + vm_compute in Hp. injection Hp as <-. by left.
    + apply elem_of_cons in Hin as [->|Hin]; [|inversion Hin].
      vm_compute in Hp. injection Hp as <-. discriminate Hn.
  - intros r p (Hin & Hp & Hn). vm_compute in Hin.
    apply elem_of_cons in Hin as [->|Hin].
    + vm_compute in Hp. injection Hp as <-. discriminate Hn.
    + apply elem_of_cons in Hin as [->|Hin]; [|inversion Hin].
      vm_compute in Hp. injection Hp as <-. by left.
Defined.

Lemma register_duplicate_without_override_witness :
  ∃ e,
    register sample_semverSatisfies "1.2.0"
      (sample_creator "x" [] None None None) None None manager_with_x
    = (Rejected e, manager_with_x)
    ∧ ("x" ≠ "" → e = DuplicatePluginError "x")
    ∧ get "x" (register sample_semverSatisfies "1.2.0"
                 (sample_creator "x" [] None None None) None None manager_with_x).2
      = Some 0
    ∧ heap (register sample_semverSatisfies "1.2.0"
              (sample_creator "x" [] None None None) None None manager_with_x).2
      = heap manager_with_x.
Proof.
  apply (register_duplicate_without_override sample_semverSatisfies "1.2.0");
    [reflexivity | reflexivity | discriminate].
Defined.

Lemma register_override_replaces_witness :
  ∃ s',
    register sample_semverSatisfies "1.2.0"
      (sample_creator "x" [] (Some "^1.0.0") (Some HookResolves) None)
      override_autoInit_options None manager_with_x
    = (Resolved tt, s')
    ∧ events s'
      = events manager_with_x ++ destroy_trace 0 unit_x
        ++ (if autoInit_requested override_autoInit_options None
            then init_trace (length (heap manager_with_x))
                   (unit_of (sample_creator "x" [] (Some "^1.0.0")
                               (Some HookResolves) None) "x")
            else [])
    ∧ get "x" s' = Some (length (heap manager_with_x))
    ∧ length (heap manager_with_x) ≠ 0
    ∧ heap s' !! length (heap manager_with_x)
      = Some (if autoInit_requested override_autoInit_options None
              then after_init (unit_of (sample_creator "x" [] (Some "^1.0.0")
                                          (Some HookResolves) None) "x")
              else unit_of (sample_creator "x" [] (Some "^1.0.0")
                              (Some HookResolves) None) "x")
    ∧ heap s' !! 0 = Some (after_destroy unit_x).
Proof.
  apply (register_override_replaces sample_semverSatisfies "1.2.0"
           (sample_creator "x" [] (Some "^1.0.0") (Some HookResolves) None)
           override_autoInit_options None manager_with_x "x" 0 unit_x);
    [reflexivity | discriminate | reflexivity | reflexivity | reflexivity
    | vm_compute; reflexivity | right; discriminate].
Defined.

Lemma toProxy_lookup_witness :
  (toProxy_get "x" manager_with_x = (Resolved (PVPluginProxy 0), manager_with_x)
   ∧ has "x" manager_with_x = true ∧ get "x" manager_with_x = Some 0)
  ∧ (toProxy_get "x" manager_with_disabled_x
     = (Resolved PVUndefined, manager_with_disabled_x)
     ∧ has "x" manager_with_disabled_x = true
     ∧ get "x" manager_with_disabled_x = Some 0)
  ∧ (toProxy_get "y" manager_with_x = (Resolved (PVManagerMember "y"), manager_with_x)
     ∧ has "y" manager_with_x = false ∧ get "y" manager_with_x = None)
  ∧ (∃ s' p', setDisabled "x" true manager_with_x = (Resolved tt, s')
              ∧ pluginsMap s' !! "x" = Some 0
              ∧ heap s' !! 0 = Some p' ∧ disabled p' = true
              ∧ toProxy_get "x" s' = (Resolved PVUndefined, s')
              ∧ has "x" s' = true ∧ get "x" s' = Some 0).
Proof.
  assert (Hx : pluginsMap_allocated manager_with_x).
  { unfold pluginsMap_allocated. refine (bool_decide_unpack _ _). vm_compute. exact I. }
  assert (Hd : pluginsMap_allocated manager_with_disabled_x).
  { unfold pluginsMap_allocated. refine (bool_decide_unpack _ _). vm_compute. exact I. }
  split; [|split; [|split]].
  - apply (proj1 (toProxy_lookup manager_with_x "x" Hx) 0 unit_x);
      vm_compute; reflexivity.
  - apply (proj1 (proj2 (toProxy_lookup manager_with_disabled_x "x" Hd))
             0 (set_disabled true unit_x));
      vm_compute; reflexivity.
  - apply (proj1 (proj2 (proj2 (toProxy_lookup manager_with_x "y" Hx)))).
    vm_compute. reflexivity.
  - apply (proj2 (proj2 (proj2 (toProxy_lookup manager_with_x "x" Hx))) 0).
    vm_compute. reflexivity.
Defined.

(** * Further properties of the manager *)

(** ** Registration *)

Section RegisterMore.
Variable semverSatisfies : string → string → bool.
Variable ENGINE_VERSION : string.

Local Abbreviation register := (LowCodePluginManager.register semverSatisfies ENGINE_VERSION).
Local Abbreviation engine_check_failed :=
  (LowCodePluginManager.engine_check_failed semverSatisfies ENGINE_VERSION).

Lemma init_resolves_unit_of creator x :
  cfg_init (creator_config creator) ≠ Some HookRejects →
  init_resolves (unit_of creator x) = true.
Proof.
  unfold init_resolves, unit_of. simpl.
  destruct (cfg_init (creator_config creator)) as [[]|]; done.
Qed.

Lemma init_rejects_unit_of creator x :
  cfg_init (creator_config creator) = Some HookRejects →
  init_resolves (unit_of creator x) = false.
Proof. unfold init_resolves, unit_of. simpl. by intros ->. Qed.

Lemma register_new_name_run creator options registerOptions s x :
  derive_pluginName creator = Some x → x ≠ "" →
  get x s = None →
  engine_check_failed
    (engines_lowcodeEngine (default empty_meta (creator_meta creator))) = false →
  register creator options registerOptions s
  = if autoInit_requested options registerOptions
    then
      if init_resolves (unit_of creator x)
      then (Resolved tt, after_register x (unit_of creator x) true s)
      else (Rejected (HookExecutionError (length (heap s))),
            with_heap_events (heap s ++ [unit_of creator x])
              (events s ++ init_trace (length (heap s)) (unit_of creator x)) s)
    else (Resolved tt, after_register x (unit_of creator x) false s).
Proof.
  intros Hname Hne Hx Hgate. unfold get in Hx.
  unfold LowCodePluginManager.register, bind.
  rewrite Hname, invariant_pluginName_truthy by done.
  unfold gets. simpl. rewrite Hx. simpl. rewrite Hgate. simpl.
  unfold alloc, bind, gets, set_heap, modify. simpl.
  change (new_LowCodePlugin x (creator_config creator)
            (default empty_meta (creator_meta creator))) with (unit_of creator x).
  change (bool_decide (effective_registerOptions options registerOptions ≫= autoInit
                       = Some true)) with (autoInit_requested options registerOptions).
  set (newp := unit_of creator x).
  destruct (autoInit_requested options registerOptions).
  - erewrite plugin_init_run; last first.
    { simpl. rewrite lookup_app_r by lia. by rewrite Nat.sub_diag. }
    unfold outcome_of. destruct (init_resolves newp) eqn:Hres.
    + simpl. unfold after_register. reflexivity.
    + simpl. unfold with_heap_events. simpl. f_equal. f_equal.
      unfold after_init. rewrite Hres.
      destruct (lifecycle newp); apply list_insert_id;
        (rewrite lookup_app_r by lia; by rewrite Nat.sub_diag).
  - simpl. unfold after_register. simpl. by rewrite app_nil_r.
Qed.

(** X1.  A registration under a name that is not taken, whose version gate
    does not fail and whose [autoInit], if asked for, does not fail, resolves:
    the new unit is a new object, [get] and [has] find it under its name, the
    map grows by one and the array by this unit at its end, every other name
    and every other object is as before, the unit is initialized only if
    [autoInit] was asked for (no hook runs otherwise), and the proxy of the
    manager answers the name with the proxy of the unit. *)
Theorem register_new_name_installs
    (creator : PluginConfigCreator)
    (options registerOptions : option ILowCodeRegisterOptions)
    (s : State) (x : string) :
  derive_pluginName creator = Some x → x ≠ "" →
  get x s = None →
  engine_check_failed
    (engines_lowcodeEngine (default empty_meta (creator_meta creator))) = false →
  autoInit_requested options registerOptions = false
  ∨ cfg_init (creator_config creator) ≠ Some HookRejects →
  ∃ s',
    register creator options registerOptions s = (Resolved tt, s')
    ∧ get x s' = Some (length (heap s)) ∧ has x s' = true
    ∧ size s' = S (size s)
    ∧ getAll s' = getAll s ++ [length (heap s)]
    ∧ (∀ y, y ≠ x → get y s' = get y s)
    ∧ (∀ r, r < length (heap s) → heap s' !! r = heap s !! r)
    ∧ heap s' !! length (heap s)
      = Some (if autoInit_requested options registerOptions
              then after_init (unit_of creator x) else unit_of creator x)
    ∧ events s'
      = events s ++ (if autoInit_requested options registerOptions
                     then init_trace (length (heap s)) (unit_of creator x) else [])
    ∧ toProxy_get x s' = (Resolved (PVPluginProxy (length (heap s))), s').
Proof.
  intros Hname Hne Hx Hgate Hauto.
  exists (after_register x (unit_of creator x)
            (autoInit_requested options registerOptions) s).
  assert (Hnew : heap (after_register x (unit_of creator x)
                         (autoInit_requested options registerOptions) s)
                 !! length (heap s)
                 = Some (if autoInit_requested options registerOptions
                         then after_init (unit_of creator x) else unit_of creator x)).
  { unfold after_register. simpl. destruct (autoInit_requested _ _).
    - apply list_lookup_insert_eq. rewrite length_app. simpl. lia.
    - simpl. rewrite lookup_app_r by lia. by rewrite Nat.sub_diag. }
  split.
  { rewrite (register_new_name_run _ _ _ _ x) by done.
    destruct (autoInit_requested options registerOptions); [|done].
    destruct Hauto as [?|Hinit]; [done|].
    by rewrite init_resolves_unit_of. }
  unfold get, has, size, getAll in *.
  split; [apply lookup_insert_eq|].
  split; [simpl; rewrite lookup_insert_eq; by apply bool_decide_eq_true_2|].
  split; [simpl; by apply map_size_insert_None|].
  split; [reflexivity|].
  split; [intros y Hy; simpl; by apply lookup_insert_ne|].
  split.
  { intros r Hr. simpl. destruct (autoInit_requested _ _); simpl.
    - rewrite list_lookup_insert_ne by lia. by apply lookup_app_l.
    - by apply lookup_app_l. }
  split; [exact Hnew|]. split; [reflexivity|].
  unfold toProxy_get, bind, gets, deref.
  cbn [pluginsMap after_register]. rewrite lookup_insert_eq. rewrite Hnew.
  assert (disabled (if autoInit_requested options registerOptions
                    then after_init (unit_of creator x) else unit_of creator x) = false)
    as ->; [|reflexivity].
  destruct (autoInit_requested _ _); [|reflexivity].
  unfold after_init, unit_of. simpl. by destruct (init_resolves _).
Qed.

(** X2.  A registration under a new name with [autoInit] whose [init] hook
    fails rejects with that failure after the hook ran, and installs nothing:
    the array and the map are as before and the name stays unregistered. *)
Theorem register_autoInit_failure_installs_nothing
    (creator : PluginConfigCreator)
    (options registerOptions : option ILowCodeRegisterOptions)
    (s : State) (x : string) :
  derive_pluginName creator = Some x → x ≠ "" →
  get x s = None →
  engine_check_failed
    (engines_lowcodeEngine (default empty_meta (creator_meta creator))) = false →
  autoInit_requested options registerOptions = true →
  cfg_init (creator_config creator) = Some HookRejects →
  ∃ s',
    register creator options registerOptions s
    = (Rejected (HookExecutionError (length (heap s))), s')
    ∧ getAll s' = getAll s ∧ pluginsMap s' = pluginsMap s
    ∧ get x s' = None ∧ size s' = size s
    ∧ events s' = events s ++ [EvCallInit (length (heap s)); EvHookInit (length (heap s))]
    ∧ (∀ r, r < length (heap s) → heap s' !! r = heap s !! r).
Proof.
  intros Hname Hne Hx Hgate Hauto Hinit.
  eexists. split.
  { rewrite (register_new_name_run _ _ _ _ x) by done.
    rewrite Hauto, init_rejects_unit_of by done. reflexivity. }
  unfold get, size, getAll in *. simpl.
  repeat split; try done.
  - unfold init_trace, unit_of. simpl. by rewrite Hinit.
  - intros r Hr. by apply lookup_app_l.
Qed.

(** X3.  When the second argument has an [autoInit] or [override] key it is
    taken as the register options and the third argument is not looked at:
    the call is the one with these options in third place.  So an override
    asked for in third place is lost: registering a taken name then fails as a
    duplicate and changes nothing. *)
Theorem register_options_in_second_place
    (creator : PluginConfigCreator)
    (options registerOptions : option ILowCodeRegisterOptions)
    (s : State) (x : string) (r : ref) :
  isLowCodeRegisterOptions options = true →
  register creator options registerOptions s = register creator None options s
  ∧ (derive_pluginName creator = Some x → x ≠ "" → get x s = Some r →
     options ≫= override ≠ Some true →
     register creator options registerOptions s
     = (Rejected (DuplicatePluginError x), s)).
Proof.
  intros Hopt.
  assert (Heff : effective_registerOptions options registerOptions = options).
  { unfold effective_registerOptions. by rewrite Hopt. }
  split.
  - unfold LowCodePluginManager.register. rewrite Heff.
    unfold effective_registerOptions at 1 2 3. simpl. reflexivity.
  - intros Hname Hne Hx Hov.
    apply (register_duplicate_run _ _ _ _ _ _ x r); try done.
    by rewrite Heff.
Qed.

End RegisterMore.

(** ** Deletion *)

Lemma findIndex_None {A} (pred : A → bool) (l : list A) :
  (∀ x, x ∈ l → pred x = false) → findIndex pred l = None.
Proof.
  induction l as [|x l IH]; intros H; simpl; [done|].
  rewrite (H x) by (apply elem_of_cons; by left).
  rewrite IH; [done|]. intros y Hy. apply H, elem_of_cons. by right.
Qed.

Lemma findIndex_unique {A} (pred : A → bool) (l : list A) (x : A) :
  x ∈ l → pred x = true → (∀ y, y ∈ l → pred y = true → y = x) →
  ∃ idx, findIndex pred l = Some idx ∧ l !! idx = Some x.
Proof.
  induction l as [|y l IH]; intros Hin Hx Huniq; [inversion Hin|]. simpl.
  destruct (pred y) eqn:Hy.
  - exists 0. split; [done|]. simpl. f_equal. apply Huniq; [apply elem_of_cons; by left|done].
  - apply elem_of_cons in Hin as [->|Hin]; [congruence|].
    destruct IH as (idx & Hidx & Hl); [done|done|..].
    + intros z Hz. apply Huniq, elem_of_cons. by right.
    + exists (S idx). rewrite Hidx. done.
Qed.

(** X4.  [delete] of a name no unit of the array carries resolves to
    [false] and changes nothing: no [destroy()] is called. *)
Theorem delete_unknown_name (s : State) (n : string) :
  (∀ r, r ∈ getAll s → name <$> heap s !! r ≠ Some n) →
  delete n s = (Resolved false, s).
Proof.
  unfold getAll. intros Hnone. unfold delete, bind, gets. simpl.
  rewrite findIndex_None; [done|].
  intros r Hr. apply bool_decide_eq_false_2. by apply Hnone.
Qed.

Lemma delete_run s n r p :
  consistent s → get n s = Some r → heap s !! r = Some p →
  ∃ idx, plugins s !! idx = Some r ∧
    delete n s
    = if destroy_resolves p
      then (Resolved true, after_delete n r p idx s)
      else (Rejected (HookExecutionError r),
            with_heap_events (<[r := after_destroy p]> (heap s))
              (events s ++ destroy_trace r p) s).
Proof.
  intros (Hnd & Halloc & Hinj & Hmap) Hget Hp. unfold get in Hget.
  pose proof Hget as Hget'. apply Hmap in Hget' as [Hin Hn].
  unfold heap_names in *.
  destruct (findIndex_unique
              (λ r0, bool_decide (name <$> heap s !! r0 = Some n)) (plugins s) r)
    as (idx & Hidx & Hr); [done|..].
  { apply bool_decide_eq_true_2. by rewrite <- list_lookup_fmap. }
  { intros r' Hin' Hpred. apply bool_decide_eq_true in Hpred.
    apply (Hinj r' r n); try done. by rewrite list_lookup_fmap. }
  exists idx. split; [done|].
  unfold delete. unfold bind at 1, gets at 1. simpl.
  unfold bind at 1, gets at 1. simpl. rewrite Hidx, Hr.
  unfold bind at 1. rewrite (plugin_destroy_run r p s Hp).
  unfold outcome_of. destruct (destroy_resolves p); [|reflexivity].
  unfold bind, gets, set_plugins, set_pluginsMap, modify, ret, after_delete. simpl.
  rewrite Hget. f_equal.
Qed.

(** X5.  In a consistent registry, [delete] of a registered name whose
    unit's [destroy()] resolves resolves to [true]: [destroy()] was called on
    that unit, the name is gone from [has], [get] and the proxy (which falls
    through to the manager again), the map shrinks by one, the array loses
    exactly that unit, every other name is as before, and the registry is
    consistent again. *)
Theorem delete_registered_unit (s : State) (n : string) (r : ref) (p : LowCodePlugin) :
  consistent s → get n s = Some r → heap s !! r = Some p →
  destroy_resolves p = true →
  ∃ s',
    delete n s = (Resolved true, s')
    ∧ has n s' = false ∧ get n s' = None
    ∧ S (size s') = size s
    ∧ (∀ r', r' ∈ getAll s' ↔ r' ∈ getAll s ∧ r' ≠ r)
    ∧ (∀ m, m ≠ n → get m s' = get m s)
    ∧ events s' = events s ++ destroy_trace r p
    ∧ heap s' !! r = Some (after_destroy p)
    ∧ toProxy_get n s' = (Resolved (PVManagerMember n), s')
    ∧ consistent s'.
Proof.
  intros Hc Hget Hp Hres.
  destruct (delete_run s n r p Hc Hget Hp) as (idx & Hidx & Hrun).
  rewrite Hres in Hrun. exists (after_delete n r p idx s).
  split; [done|].
  pose proof (delete_consistent n s Hc) as Hc'. rewrite Hrun in Hc'. simpl in Hc'.
  destruct Hc as (Hnd & Halloc & Hinj & Hmap).
  destruct (splice1_spec _ _ _ Hnd Hidx) as [_ Hmem].
  unfold get, has, size, getAll in *. simpl.
  split; [apply bool_decide_eq_false_2; rewrite lookup_delete_eq; by intros [??]|].
  split; [apply lookup_delete_eq|].
  split.
  { rewrite map_size_delete_Some by eauto.
    assert (base.size (pluginsMap s) ≠ 0); [|lia].
    apply map_size_ne_0_lookup_2 with n. eauto. }
  split; [exact Hmem|].
  split; [intros m Hm; by apply lookup_delete_ne|].
  split; [reflexivity|].
  split; [apply list_lookup_insert_eq; by eapply lookup_lt_Some|].
  split; [|exact Hc'].
  unfold toProxy_get, bind, gets. simpl. by rewrite lookup_delete_eq.
Qed.

(** X6.  When the unit's [destroy()] rejects, [delete] rejects with that
    failure before it removes anything: the unit is still in the array and
    under its name in the map. *)
Theorem delete_failing_destroy_keeps_unit
    (s : State) (n : string) (r : ref) (p : LowCodePlugin) :
  consistent s → get n s = Some r → heap s !! r = Some p →
  destroy_resolves p = false →
  ∃ s',
    delete n s = (Rejected (HookExecutionError r), s')
    ∧ getAll s' = getAll s ∧ pluginsMap s' = pluginsMap s
    ∧ get n s' = Some r ∧ size s' = size s
    ∧ heap s' = heap s
    ∧ events s' = events s ++ destroy_trace r p.
Proof.
  intros Hc Hget Hp Hres.
  destruct (delete_run s n r p Hc Hget Hp) as (idx & Hidx & Hrun).
  rewrite Hres in Hrun. eexists. split; [exact Hrun|].
  unfold get, size, getAll in *. simpl. repeat split; try done.
  unfold after_destroy. rewrite Hres.
  destruct (lifecycle p); by apply list_insert_id.
Qed.

(** ** What [destroy] and [init] leave alone *)

Lemma destroy_stable {B} (f : State → B) : unit_stable f → preserves f destroy.
Proof.
  intros Hf. unfold destroy. apply preserves_bind; [apply preserves_gets|intros ps].
  apply preserves_for_of. intros r. by apply plugin_destroy_stable.
Qed.

(** X7.  The manager's [destroy()] tears units down but unregisters none,
    whether it resolves or rejects: the array, the map, the size, the
    preference snapshot and the names of all units are as before. *)
Theorem destroy_keeps_units_registered (s : State) :
  getAll (destroy s).2 = getAll s
  ∧ pluginsMap (destroy s).2 = pluginsMap s
  ∧ size (destroy s).2 = size s
  ∧ pluginPreference (destroy s).2 = pluginPreference s
  ∧ name <$> heap (destroy s).2 = name <$> heap s.
Proof.
  pose proof (destroy_preserves_registry s) as Hreg.
  unfold registry_of, heap_names in Hreg. injection Hreg as Hps Hm Hhn.
  unfold getAll, size. rewrite Hm. repeat split; try done.
  apply (destroy_stable pluginPreference unit_stable_pluginPreference).
Qed.

Section InitMore.
Variable sequencify : gmap string (list string) → list string → SeqResult.

Lemma init_preserves_registry pref s :
  registry_of (init sequencify pref s).2 = registry_of s.
Proof.
  unfold init, set_pluginPreference. rewrite bind_modify.
  match goal with
  | |- registry_of (?m ?s1).2 = _ =>
      transitivity (registry_of s1); [|reflexivity];
      generalize s1; change (preserves registry_of m)
  end.
  apply preserves_bind; [apply preserves_gets|intros ps].
  apply preserves_bind; [apply collect_preserves|intros c].
  apply preserves_bind; [apply preserves_gets|intros h].
  apply preserves_bind; [apply preserves_invariant|intros _].
  apply preserves_for_of. intros n. apply init_one_stable.
  apply unit_stable_registry_of.
Qed.

(** X8.  [init()] registers and unregisters nothing, whatever the sequencer
    answers and however the hooks behave: the array, the map, the size and the
    names of all units are as before. *)
Theorem init_keeps_registry (s : State)
    (pref : option (gmap string (gmap string PreferenceValueType))) :
  getAll (init sequencify pref s).2 = getAll s
  ∧ pluginsMap (init sequencify pref s).2 = pluginsMap s
  ∧ size (init sequencify pref s).2 = size s
  ∧ name <$> heap (init sequencify pref s).2 = name <$> heap s.
Proof.
  pose proof (init_preserves_registry pref s) as Hreg.
  unfold registry_of, heap_names in Hreg. injection Hreg as Hps Hm Hhn.
  unfold getAll, size. rewrite Hm. done.
Qed.

(** X9.  After [init(pluginPreference)] with a map, resolved or rejected,
    [getPluginPreference(name)] is the entry of that map for the name, and
    [undefined] when the map has none. *)
Theorem init_stores_preference (s : State)
    (pref : gmap string (gmap string PreferenceValueType)) (pluginName : string) :
  getPluginPreference pluginName (init sequencify (Some pref) s).2
  = match pref !! pluginName with
    | Some v => PrefValue v
    | None => PrefUndefined
    end.
Proof.
  unfold getPluginPreference. by rewrite init_pluginPreference.
Qed.

End InitMore.

(** ** The preference snapshot and the disabled flag *)

Ltac preserve_step :=
  first
    [ apply preserves_ret | apply preserves_throw | apply preserves_gets
    | apply preserves_invariant | apply deref_preserves
    | apply plugin_init_stable; apply unit_stable_pluginPreference
    | apply plugin_destroy_stable; apply unit_stable_pluginPreference
    | apply preserves_for_of; intros
    | apply preserves_modify; intros; reflexivity
    | apply preserves_try_catch; [|intros]
    | apply preserves_bind; [|intros]
    | match goal with
      | |- preserves _ (match ?x with _ => _ end) => destruct x
      | |- preserves _ (if ?x then _ else _) => destruct x
      end ].

Lemma register_preserves_pluginPreference semverSatisfies ENGINE_VERSION
    creator options registerOptions :
  preserves pluginPreference
    (register semverSatisfies ENGINE_VERSION creator options registerOptions).
Proof.
  unfold register, invariant_pluginName, alloc, set_heap, set_plugins, set_pluginsMap.
  repeat preserve_step.
Qed.

Lemma delete_preserves_pluginPreference n : preserves pluginPreference (delete n).
Proof.
  unfold delete, set_plugins, set_pluginsMap. repeat preserve_step.
Qed.

Lemma setDisabled_preserves_pluginPreference n flag :
  preserves pluginPreference (setDisabled n flag).
Proof.
  unfold setDisabled, plugin_setDisabled, update, set_heap. repeat preserve_step.
Qed.

Lemma dispose_preserves_pluginPreference : preserves pluginPreference dispose.
Proof.
  unfold dispose, destroy, set_plugins, set_pluginsMap. repeat preserve_step.
Qed.

(** X10.  No call but [init] touches the preference snapshot: after
    [register], [delete], [destroy], [setDisabled] or [dispose], resolved or
    rejected, [getPluginPreference] answers as before. *)
Theorem only_init_replaces_preference
    (semverSatisfies : string → string → bool) (ENGINE_VERSION : string)
    (sequencify : gmap string (list string) → list string → SeqResult)
    (op : Operation) (s : State) (pluginName : string) :
  is_init op = false →
  getPluginPreference pluginName
    (perform semverSatisfies ENGINE_VERSION sequencify op s)
  = getPluginPreference pluginName s.
Proof.
  intros Hop. unfold getPluginPreference.
  assert (pluginPreference (perform semverSatisfies ENGINE_VERSION sequencify op s)
          = pluginPreference s) as ->; [|done].
  destruct op; simpl; try done.
  - apply register_preserves_pluginPreference.
  - apply delete_preserves_pluginPreference.
  - apply (destroy_stable pluginPreference unit_stable_pluginPreference).
  - apply setDisabled_preserves_pluginPreference.
  - apply dispose_preserves_pluginPreference.
Qed.

Lemma set_disabled_twice p flag :
  disabled p = flag → set_disabled flag (set_disabled (negb flag) p) = p.
Proof. destruct p. simpl. by intros ->. Qed.

Lemma setDisabled_run n flag s r p :
  get n s = Some r → heap s !! r = Some p →
  setDisabled n flag s
  = (Resolved tt, with_heap_events (<[r := set_disabled flag p]> (heap s)) (events s) s).
Proof.
  unfold get. intros Hr Hp.
  unfold setDisabled, plugin_setDisabled, update, bind, gets, deref, set_heap, modify.
  simpl. rewrite Hr, Hp. reflexivity.
Qed.

Lemma with_heap_events_id s : with_heap_events (heap s) (events s) s = s.
Proof. by destruct s. Qed.

(** X11.  Disabling a registered, enabled unit and enabling it again brings
    the manager back to the state it was in: in between the proxy answers the
    name with [undefined], afterwards with the proxy of the unit again. *)
Theorem setDisabled_round_trip (s : State) (n : string) (r : ref) (p : LowCodePlugin) :
  get n s = Some r → heap s !! r = Some p → disabled p = false →
  (setDisabled n true ;; setDisabled n false) s = (Resolved tt, s)
  ∧ toProxy_get n (setDisabled n true s).2
    = (Resolved PVUndefined, (setDisabled n true s).2)
  ∧ toProxy_get n (setDisabled n false (setDisabled n true s).2).2
    = (Resolved (PVPluginProxy r), s).
Proof.
  intros Hr Hp Hd.
  assert (Hlt : r < length (heap s)) by (by eapply lookup_lt_Some).
  pose proof (setDisabled_run n true s r p Hr Hp) as H1.
  set (s1 := with_heap_events (<[r := set_disabled true p]> (heap s)) (events s) s) in *.
  assert (Hp1 : heap s1 !! r = Some (set_disabled true p)).
  { simpl. by apply list_lookup_insert_eq. }
  pose proof (setDisabled_run n false s1 r _ Hr Hp1) as H2.
  assert (Hback : with_heap_events (<[r := set_disabled false (set_disabled true p)]> (heap s1))
                    (events s1) s1 = s).
  { unfold s1. simpl. unfold with_heap_events. simpl.
    rewrite list_insert_insert_eq.
    change (set_disabled false (set_disabled true p))
      with (set_disabled false (set_disabled (negb false) p)).
    rewrite (set_disabled_twice p false Hd), (list_insert_id _ _ _ Hp).
    by destruct s. }
  rewrite Hback in H2.
  split; [unfold bind; by rewrite H1, H2|].
  rewrite H1. simpl. rewrite H2. simpl.
  unfold toProxy_get, bind, gets, deref. unfold get in Hr. simpl.
  rewrite Hr, Hp, Hd. simpl. rewrite list_lookup_insert_eq by done. done.
Qed.

(** X12.  [setDisabled] always resolves and touches nothing but the flag of
    the unit registered under the name: the array, the map, the events and
    every other object are as before, and for a name that is not registered
    the state is unchanged. *)
Theorem setDisabled_touches_one_unit (s : State) (n : string) (flag : bool) :
  pluginsMap_allocated s →
  ∃ s',
    setDisabled n flag s = (Resolved tt, s')
    ∧ getAll s' = getAll s ∧ pluginsMap s' = pluginsMap s ∧ events s' = events s
    ∧ length (heap s') = length (heap s)
    ∧ (∀ r, get n s ≠ Some r → heap s' !! r = heap s !! r)
    ∧ (∀ r p, get n s = Some r → heap s !! r = Some p →
         heap s' !! r = Some (set_disabled flag p))
    ∧ (get n s = None → s' = s).
Proof.
  intros Halloc. unfold get.
  destruct (pluginsMap s !! n) as [r|] eqn:Hr.
  - pose proof (Halloc n r Hr) as Hlt. simpl in Hlt.
    destruct (lookup_lt_is_Some_2 _ _ Hlt) as [p Hp].
    rewrite (setDisabled_run n flag s r p Hr Hp). eexists. split; [reflexivity|].
    unfold getAll. simpl. repeat split; try done.
    + apply length_insert.
    + intros r' Hne. apply list_lookup_insert_ne. congruence.
    + intros r' p' [= <-] Hp'. rewrite list_lookup_insert_eq by done. congruence.
  - exists s. unfold setDisabled, bind, gets. simpl. rewrite Hr.
    repeat split; done.
Qed.

(** ** Teardown, and the managers that can arise *)

Lemma after_destroy_destroyed p :
  destroy_resolves p = true → lifecycle (after_destroy p) = Destroyed.
Proof.
  unfold after_destroy. intros Hres. rewrite Hres.
  destruct (lifecycle p) eqn:Hl; simpl; done.
Qed.

Lemma destroy_clean_run_destroys pre : ∀ s,
  Forall (destroys_cleanly (heap s)) pre →
  ∃ s' tr,
    for_of pre plugin_destroy s = (Resolved tt, s')
    ∧ events s' = events s ++ tr
    ∧ destroy_calls tr = pre
    ∧ Forall (teardown_event_of pre) tr
    ∧ (∀ r, r ∈ pre → destroyed_in (heap s') r)
    ∧ (∀ r, destroyed_in (heap s) r → destroyed_in (heap s') r).
Proof.
  induction pre as [|r pre IH]; intros s Hall; simpl.
  - exists s, []. rewrite app_nil_r. repeat split; try done. intros r Hr. inversion Hr.
  - inversion Hall as [|? ? (p & Hp & Hres) Hpre]; subst.
    assert (Hlt : r < length (heap s)) by (by eapply lookup_lt_Some).
    unfold bind. rewrite (plugin_destroy_run r p s Hp), Hres. simpl.
    set (s1 := with_heap_events _ _ s).
    assert (Hkeep : ∀ r0, destroyed_in (heap s) r0 → destroyed_in (heap s1) r0).
    { intros r0 Hd. unfold destroyed_in in *. simpl.
      destruct (decide (r0 = r)) as [->|Hne].
      - rewrite list_lookup_insert_eq by done. simpl.
        by rewrite after_destroy_destroyed.
      - by rewrite list_lookup_insert_ne. }
    destruct (IH s1) as (s2 & tr & Hrun & Hev & Hcalls & Htr & Hdest & Hmono).
    { eapply Forall_impl; [exact Hpre|]. intros r' (p' & Hp' & Hres'). simpl.
      destruct (decide (r' = r)) as [->|Hne].
      - exists (after_destroy p). split; [by apply list_lookup_insert_eq|].
        apply destroy_resolves_after. congruence.
      - exists p'. by rewrite list_lookup_insert_ne. }
    exists s2, (destroy_trace r p ++ tr). rewrite Hrun.
    split; [done|]. split; [rewrite Hev; symmetry; apply (app_assoc (events s))|].
    split; [|split; [|split]].
    + unfold destroy_calls in *. rewrite omap_app, Hcalls. unfold destroy_trace.
      destruct (lifecycle p), (cfg_destroy (config p)); reflexivity.
    + apply Forall_app. split.
      * assert (Hc : teardown_event_of (r :: pre) (EvCallDestroy r)).
        { exists r. split; [apply elem_of_cons; by left | by left]. }
        assert (Hh : teardown_event_of (r :: pre) (EvHookDestroy r)).
        { exists r. split; [apply elem_of_cons; by left | by right]. }
        unfold destroy_trace.
        destruct (lifecycle p), (cfg_destroy (config p)); repeat constructor; done.
      * eapply Forall_impl; [exact Htr|]. intros e (r' & Hin & He). exists r'.
        split; [apply elem_of_cons; by right | done].
    + intros r' Hr'. apply elem_of_cons in Hr' as [->|Hr']; [|by apply Hdest].
      apply Hmono. unfold destroyed_in. simpl.
      rewrite list_lookup_insert_eq by done. simpl. by rewrite after_destroy_destroyed.
    + intros r' Hd. by apply Hmono, Hkeep.
Qed.

(** X13.  When no unit's [destroy()] fails, [dispose()] resolves after
    calling [destroy()] on every unit of the array, in the order of the
    array; every one of them is destroyed, the registry is empty, no name is
    registered any more and the proxy answers every name with the manager's
    own member. *)
Theorem dispose_tears_down_everything (s : State) :
  Forall (destroys_cleanly (heap s)) (getAll s) →
  ∃ s' tr,
    dispose s = (Resolved tt, s')
    ∧ events s' = events s ++ tr
    ∧ destroy_calls tr = getAll s
    ∧ Forall (teardown_event_of (getAll s)) tr
    ∧ (∀ r, r ∈ getAll s → destroyed_in (heap s') r)
    ∧ size s' = 0 ∧ getAll s' = []
    ∧ (∀ n, has n s' = false
            ∧ toProxy_get n s' = (Resolved (PVManagerMember n), s')).
Proof.
  unfold getAll. intros Hall.
  destruct (destroy_clean_run_destroys (plugins s) s Hall)
    as (s1 & tr & Hrun & Hev & Hcalls & Htr & Hdest & _).
  eexists _, tr. unfold dispose, destroy. unfold bind at 1. unfold bind at 1.
  unfold gets at 1. simpl. rewrite Hrun. simpl.
  split; [reflexivity|]. simpl. repeat split; try done.
Qed.

Section Reachable.
Variable semverSatisfies : string → string → bool.
Variable ENGINE_VERSION : string.
Variable sequencify : gmap string (list string) → list string → SeqResult.

Lemma reachable_in_sequence_consistent s :
  reachable_in_sequence semverSatisfies ENGINE_VERSION sequencify s → consistent s.
Proof.
  induction 1 as [|s op Hreach IH Hno].
  - apply consistent_empty.
  - destruct op; simpl.
    + apply register_consistent; [done|]. intros x Hx.
      destruct (get x s) as [r|] eqn:Hget; [|by left]. right.
      intros Hov. apply Hno. exists x. rewrite Hget. eauto.
    + by apply delete_consistent.
    + by apply init_consistent.
    + by apply destroy_consistent.
    + by apply setDisabled_consistent.
    + by apply dispose_consistent.
Qed.

(** X14.  In every manager that calls made one after the other lead to from
    a new manager, each call awaited before the next is made and none of them
    a [register] that replaces a registered unit, the size of the map is the
    length of the array, the array holds no unit twice, every reference is
    allocated, the map holds exactly the units of the array each under its own
    name, and no two units of the array have the same name.  Calls that
    overlap at an [await] are not covered. *)
Theorem reachable_in_sequence_registry_agrees (s : State) :
  reachable_in_sequence semverSatisfies ENGINE_VERSION sequencify s →
  size s = length (getAll s)
  ∧ NoDup (getAll s)
  ∧ plugins_allocated s ∧ pluginsMap_allocated s
  ∧ (∀ n r, get n s = Some r ↔ r ∈ getAll s ∧ name <$> heap s !! r = Some n)
  ∧ (∀ r1 r2 n, r1 ∈ getAll s → r2 ∈ getAll s →
       name <$> heap s !! r1 = Some n → name <$> heap s !! r2 = Some n → r1 = r2).
Proof.
  intros Hreach. pose proof (reachable_in_sequence_consistent s Hreach) as Hc.
  split; [by apply consistent_size|].
  destruct Hc as (Hnd & Halloc & Hinj & Hmap).
  unfold getAll, get, heap_names in *.
  split; [done|]. split; [|split; [|split]].
  - apply Forall_forall. intros r Hr. destruct (Halloc r Hr) as [n Hn].
    apply lookup_lt_Some in Hn. by rewrite length_fmap in Hn.
  - intros n r Hr. simpl. apply Hmap in Hr as [Hin _].
    destruct (Halloc r Hin) as [n' Hn'].
    apply lookup_lt_Some in Hn'. by rewrite length_fmap in Hn'.
  - intros n r. rewrite Hmap. by rewrite list_lookup_fmap.
  - intros r1 r2 n H1 H2 Hn1 Hn2. apply (Hinj r1 r2 n); try done.
    all: by rewrite list_lookup_fmap.
Qed.

End Reachable.

(** ** Refused registrations *)

Section RegisterRefusals.
Variable semverSatisfies : string → string → bool.
Variable ENGINE_VERSION : string.

Local Abbreviation register := (LowCodePluginManager.register semverSatisfies ENGINE_VERSION).
Local Abbreviation engine_check_failed :=
  (LowCodePluginManager.engine_check_failed semverSatisfies ENGINE_VERSION).

(** An overriding registration goes on, after the teardown of the original,
    exactly as a registration under a new name does. *)
Lemma register_override_as_new creator options registerOptions s x r p :
  derive_pluginName creator = Some x → x ≠ "" →
  get x s = Some r → heap s !! r = Some p →
  effective_registerOptions options registerOptions ≫= override = Some true →
  register creator options registerOptions s
  = register creator options registerOptions (after_override_teardown x r p s).
Proof.
  intros Hname Hne Hx Hp Hov. unfold get in Hx.
  unfold LowCodePluginManager.register, bind.
  rewrite Hname. rewrite !invariant_pluginName_truthy by done.
  unfold gets. simpl. rewrite Hx, Hov, lookup_delete_eq.
  rewrite bool_decide_eq_true_2 by done. simpl.
  unfold try_catch, bind. rewrite (plugin_destroy_run r p s Hp).
  unfold outcome_of. destruct (destroy_resolves p); reflexivity.
Qed.

Lemma register_new_name_outcome creator options registerOptions s x e s' :
  derive_pluginName creator = Some x → x ≠ "" → get x s = None →
  register creator options registerOptions s = (Rejected e, s') →
  (e = IncompatibleVersionError x ∧ s' = s)
  ∨ e = HookExecutionError (length (heap s)).
Proof.
  intros Hname Hne Hx Hrun.
  destruct (engine_check_failed
              (engines_lowcodeEngine (default empty_meta (creator_meta creator))))
    eqn:Hgate.
  - rewrite (register_gate_failure_new_name _ _ _ _ _ _ x) in Hrun by done.
    injection Hrun as <- <-. by left.
  - rewrite (register_new_name_run _ _ _ _ _ _ x) in Hrun by done.
    destruct (autoInit_requested options registerOptions); [|done].
    destruct (init_resolves (unit_of creator x)); [done|].
    injection Hrun as <- <-. by right.
Qed.

(** X20.  A [register] that is refused for want of a name, as a duplicate,
    or by the version gate for a name that was not registered, leaves the
    whole state as it was. *)
Theorem register_refusals_change_nothing
    (creator : PluginConfigCreator)
    (options registerOptions : option ILowCodeRegisterOptions)
    (s s' : State) (e : Error) :
  pluginsMap_allocated s →
  register creator options registerOptions s = (Rejected e, s') →
  e = ConfigurationError
  ∨ (∃ x, e = DuplicatePluginError x)
  ∨ (∃ x, e = IncompatibleVersionError x ∧ get x s = None) →
  s' = s.
Proof.
  intros Halloc Hrun He.
  destruct (truthy (derive_pluginName creator)) eqn:Htruthy.
  2:{ rewrite register_without_name in Hrun by done. by injection Hrun as <- <-. }
  destruct (derive_pluginName creator) as [x|] eqn:Hname; [|done].
  assert (Hne : x ≠ "") by (intros ->; by vm_compute in Htruthy).
  destruct (get x s) as [r|] eqn:Hx.
  - destruct (decide (effective_registerOptions options registerOptions ≫= override
                      = Some true)) as [Hov|Hov].
    + pose proof (Halloc x r Hx) as Hlt. simpl in Hlt.
      destruct (lookup_lt_is_Some_2 _ _ Hlt) as [p Hp].
      rewrite (register_override_as_new _ _ _ _ x r p) in Hrun by done.
      apply (register_new_name_outcome _ _ _ _ x) in Hrun
        as [[-> _]| ->]; try done.
      * destruct He as [?|[[y ?]|(y & [= <-] & Hy)]]; try done. congruence.
      * destruct He as [?|[[y ?]|(y & ? & _)]]; done.
      * apply lookup_delete_eq.
    + rewrite (register_duplicate_run _ _ _ _ _ _ x r) in Hrun by done.
      by injection Hrun as <- <-.
  - apply (register_new_name_outcome _ _ _ _ x) in Hrun as [[_ ->]| ->]; try done.
    destruct He as [?|[[y ?]|(y & ? & _)]]; done.
Qed.

End RegisterRefusals.

(** * The engine *)

Section EngineFacts.
Import EngineCore.
Context {EngineOptions : Type}.
Variable plugins_init :
  option (gmap string (gmap string PreferenceValueType)) → M unit.

Lemma engine_init_sets_flag container options pref (e : Engine EngineOptions) :
  engineInited (init plugins_init container options pref e).2 = true.
Proof.
  unfold init. destruct (engineInited e) eqn:He; [done|].
  destruct (plugins_init pref (plugins_manager e)) as [[[]|err] m]; reflexivity.
Qed.

(** X15.  The engine's [init] runs once: after a first call, whether the
    plugins' [init] resolved or rejected in it, any further call resolves at
    once and changes nothing; a failed initialization is not tried again. *)
Theorem engine_init_runs_once
    (container1 container2 : ContainerArg EngineOptions)
    (options1 options2 : option EngineOptions)
    (pref1 pref2 : option (gmap string (gmap string PreferenceValueType)))
    (e : Engine EngineOptions) :
  init plugins_init container2 options2 pref2
    (init plugins_init container1 options1 pref1 e).2
  = (Resolved tt, (init plugins_init container1 options1 pref1 e).2).
Proof.
  pose proof (engine_init_sets_flag container1 options1 pref1 e) as Hflag.
  unfold init at 1. by rewrite Hflag.
Qed.


End EngineFacts.

(** * The settings pane *)

Section BreadcrumbFacts.
Import SettingsPrimaryPane.

(** The loop once the selected node is behind it: [l] is 1 or 0 after the
    decrement, every item gets the handlers. *)
Lemma breadcrumb_loop_ancestors ignore : ∀ chain (l : Z) items,
  (0 ≤ l ≤ 2)%Z →
  breadcrumb_loop ignore l chain items
  = rev (ancestor_item <$>
           take (Z.to_nat l) (upto_focus (if ignore then before_root chain else chain)))
    ++ items.
Proof.
  induction chain as [|node parents IH]; intros l items Hl.
  - simpl. destruct (0 <? l)%Z, ignore; simpl; by rewrite take_nil.
  - simpl. destruct (0 <? l)%Z eqn:Hpos.
    2:{ apply Z.ltb_ge in Hpos. assert (l = 0%Z) as -> by lia.
        by rewrite take_0. }
    apply Z.ltb_lt in Hpos.
    destruct ignore; simpl.
    + destruct (isRoot node) eqn:Hroot; simpl.
      { by rewrite take_nil. }
      destruct (contains_focusNode node) eqn:Hfocus.
      * rewrite (IH 0%Z) by lia. simpl. rewrite ?take_0. simpl.
        replace (Z.to_nat l) with (S (Z.to_nat (l - 1))) by lia. simpl.
        rewrite ?take_nil. simpl. unfold ancestor_item. done.
      * assert ((l - 1 =? 2)%Z = false) as -> by (apply Z.eqb_neq; lia).
        rewrite (IH (l - 1)%Z) by lia. simpl.
        replace (Z.to_nat l) with (S (Z.to_nat (l - 1))) by lia. simpl.
        rewrite <- app_assoc. done.
    + destruct (contains_focusNode node) eqn:Hfocus.
      * rewrite (IH 0%Z) by lia. simpl. rewrite ?take_0. simpl.
        replace (Z.to_nat l) with (S (Z.to_nat (l - 1))) by lia. simpl.
        rewrite ?take_nil. simpl. unfold ancestor_item. done.
      * assert ((l - 1 =? 2)%Z = false) as -> by (apply Z.eqb_neq; lia).
        rewrite (IH (l - 1)%Z) by lia. simpl.
        replace (Z.to_nat l) with (S (Z.to_nat (l - 1))) by lia. simpl.
        rewrite <- app_assoc. done.
Qed.

Lemma breadcrumb_items_eq (shouldIgnoreRoot : bool) (chain : list Node) :
  breadcrumb_items shouldIgnoreRoot chain = items_of (shown_nodes shouldIgnoreRoot chain).
Proof.
  unfold breadcrumb_items, shown_nodes.
  destruct chain as [|node parents]; [by destruct shouldIgnoreRoot|].
  simpl. destruct shouldIgnoreRoot; simpl.
  - destruct (isRoot node) eqn:Hroot; simpl; [done|].
    destruct (contains_focusNode node) eqn:Hfocus; simpl.
    + rewrite (breadcrumb_loop_ancestors true parents 0%Z) by lia.
      simpl. rewrite ?take_0. simpl. unfold selected_item. by rewrite Hfocus.
    + rewrite (breadcrumb_loop_ancestors true parents 2%Z) by lia.
      simpl. unfold selected_item. by rewrite Hfocus.
  - destruct (contains_focusNode node) eqn:Hfocus; simpl.
    + rewrite (breadcrumb_loop_ancestors false parents 0%Z) by lia.
      simpl. rewrite ?take_0. simpl. unfold selected_item. by rewrite Hfocus.
    + rewrite (breadcrumb_loop_ancestors false parents 2%Z) by lia.
      simpl. unfold selected_item. by rewrite Hfocus.
Qed.

(** X17.  The breadcrumb shows the selected node and its ancestors,
    outermost first: those before the first root when the root is ignored, up
    to and including the first that contains the focus node, three at most.
    Every ancestor's item has the handlers; the selected node's item has them
    only when that node contains the focus node. *)
Theorem breadcrumb_items_shown (shouldIgnoreRoot : bool) (chain : list Node) :
  breadcrumb_items shouldIgnoreRoot chain = items_of (shown_nodes shouldIgnoreRoot chain).
Proof. apply breadcrumb_items_eq. Qed.

Lemma fmap_rev {A B} (f : A → B) (l : list A) : f <$> rev l = rev (f <$> l).
Proof.
  induction l as [|x l IH]; simpl; [done|]. by rewrite fmap_app, IH.
Qed.

Lemma elem_of_rev_1 {A} (x : A) (l : list A) : x ∈ rev l → x ∈ l.
Proof. rewrite !list_elem_of_In. apply in_rev. Qed.

Lemma upto_focus_prefix chain : upto_focus chain `prefix_of` chain.
Proof.
  induction chain as [|node parents IH]; simpl; [done|].
  destruct (contains_focusNode node).
  - by apply (prefix_cons node [] parents), prefix_nil.
  - by apply prefix_cons.
Qed.

Lemma before_root_prefix chain : before_root chain `prefix_of` chain.
Proof.
  induction chain as [|node parents IH]; simpl; [done|].
  destruct (isRoot node); [apply prefix_nil|by apply prefix_cons].
Qed.

Lemma before_root_no_root chain : Forall (λ n, isRoot n = false) (before_root chain).
Proof.
  induction chain as [|node parents IH]; simpl; [constructor|].
  destruct (isRoot node) eqn:Hroot; constructor; done.
Qed.

Lemma upto_focus_inner chain i n :
  upto_focus chain !! i = Some n → S i < length (upto_focus chain) →
  contains_focusNode n = false.
Proof.
  revert i. induction chain as [|node parents IH]; intros i; simpl; [done|].
  destruct (contains_focusNode node) eqn:Hfocus; simpl.
  - intros _ Hlen. lia.
  - destruct i as [|i]; simpl.
    + by intros [= <-] _.
    + intros Hi Hlen. apply (IH i); [done|lia].
Qed.

Lemma shown_nodes_spec ignore chain :
  shown_nodes ignore chain `prefix_of` chain
  ∧ (length (shown_nodes ignore chain) ≤ 3)%nat
  ∧ (ignore = true → Forall (λ n, isRoot n = false) (shown_nodes ignore chain))
  ∧ (∀ i n, shown_nodes ignore chain !! i = Some n →
       S i < length (shown_nodes ignore chain) → contains_focusNode n = false).
Proof.
  unfold shown_nodes.
  set (base := if ignore then before_root chain else chain).
  assert (Hbase : base `prefix_of` chain).
  { unfold base. destruct ignore; [apply before_root_prefix|done]. }
  split; [|split; [|split]].
  - etrans; [apply prefix_take|]. etrans; [apply upto_focus_prefix|done].
  - rewrite length_take. lia.
  - intros ->. unfold base.
    assert (Hpre : take 3 (upto_focus (before_root chain)) `prefix_of` before_root chain).
    { etrans; [apply prefix_take|apply upto_focus_prefix]. }
    destruct Hpre as [k Hk]. pose proof (before_root_no_root chain) as Hall.
    rewrite Hk in Hall. by apply Forall_app in Hall as [Hall _].
  - intros i n Hi Hlen. apply lookup_take_Some in Hi as [Hi _].
    apply (upto_focus_inner base i n Hi).
    rewrite length_take in Hlen. lia.
Qed.

(** X18.  The breadcrumb never has more than three items; their keys are
    the ids of an initial stretch of the chain from the selected node upwards,
    in reverse; with the root ignored none of these nodes is a root; none but
    the outermost of them contains the focus node; and every item but the last
    has the handlers. *)
Theorem breadcrumb_items_bounds (shouldIgnoreRoot : bool) (chain : list Node) :
  (length (breadcrumb_items shouldIgnoreRoot chain) ≤ 3)%nat
  ∧ (∃ shown,
       shown `prefix_of` chain
       ∧ item_key <$> breadcrumb_items shouldIgnoreRoot chain = rev (node_id <$> shown)
       ∧ (shouldIgnoreRoot = true → Forall (λ n, isRoot n = false) shown)
       ∧ (∀ i n, shown !! i = Some n → S i < length shown →
            contains_focusNode n = false))
  ∧ (∀ i item, breadcrumb_items shouldIgnoreRoot chain !! i = Some item →
       S i < length (breadcrumb_items shouldIgnoreRoot chain) →
       item_handlers item = true).
Proof.
  rewrite breadcrumb_items_eq.
  destruct (shown_nodes_spec shouldIgnoreRoot chain) as (Hpre & Hlen & Hroot & Hfocus).
  set (shown := shown_nodes shouldIgnoreRoot chain) in *.
  assert (Hitems : length (items_of shown) = length shown).
  { destruct shown as [|n ns]; simpl; [done|].
    rewrite length_app, length_rev, length_fmap. simpl. lia. }
  split; [lia|]. split.
  - exists shown. split; [done|]. split; [|done].
    destruct shown as [|n ns]; simpl; [done|].
    rewrite fmap_app, fmap_rev. simpl. f_equal. f_equal.
    by rewrite <- list_fmap_compose.
  - intros i item Hi Hlt. destruct shown as [|n ns]; simpl in *; [done|].
    rewrite length_app, length_rev, length_fmap in Hlt. simpl in Hlt.
    rewrite lookup_app_l in Hi by (rewrite length_rev, length_fmap; lia).
    apply list_elem_of_lookup_2, elem_of_rev_1, list_elem_of_fmap in Hi
      as (m & -> & _). done.
Qed.

End BreadcrumbFacts.

Section RenderFacts.
Import SettingsPrimaryPane.

(** X19.  When [render] shows tabs there are between one and five of them,
    one per item, all items are group fields of one component type, and the
    active key is always the name of one of the tabs: the stored key when it
    names a tab, the first tab otherwise; the tabs are hidden only when there
    is exactly one. *)
Theorem tabs_active_key_is_a_tab
    (enableLockedNodeSetting hideSettingsTabsWhenOnlyOneItem : bool)
    (_activeKey : option string) (settings : option Settings)
    (tabs : list string) (activeKey : option string) (hideTabs : bool) :
  render enableLockedNodeSetting hideSettingsTabsWhenOnlyOneItem _activeKey settings
  = Tabs tabs activeKey hideTabs →
  (1 ≤ length tabs ≤ 5)%nat
  ∧ (∃ key, activeKey = Some key ∧ key ∈ tabs)
  ∧ ((∃ key, _activeKey = Some key ∧ key ∈ tabs) → activeKey = _activeKey)
  ∧ ((∀ key, _activeKey = Some key → key ∉ tabs) → activeKey = head tabs)
  ∧ (hideTabs = true → length tabs = 1)
  ∧ (∃ s, settings = Some s ∧ tabs = field_name <$> settings_items s
          ∧ Forall (λ item, isSettingField item = true ∧ isGroup item = true)
                   (settings_items s)
          ∧ isSameComponent s = true).
Proof.
  unfold render. destruct settings as [s|]; [|done].
  remember (settings_items s) as items eqn:Hitems.
  destruct (isLocked s && negb enableLockedNodeSetting); [done|].
  case_bool_decide as Hlen0; [done|].
  destruct (isSameComponent s) eqn:Hsame; [|done]. simpl.
  case_bool_decide as Hlen5; [done|]. simpl.
  destruct (existsb _ items) eqn:Hsome; [done|].
  intros [= <- <- <-].
  assert (Hall : Forall (λ item, isSettingField item = true ∧ isGroup item = true)
                   items).
  { apply Forall_forall. intros item Hin.
    destruct (isSettingField item) eqn:Hf, (isGroup item) eqn:Hg; try done.
    all: exfalso; apply not_true_iff_false in Hsome; apply Hsome;
      apply existsb_exists; exists item;
      (split; [by apply list_elem_of_In|by rewrite Hf, Hg]). }
  clear Hsome.
  assert (Hmatched : ∀ key,
    existsb (λ field, bool_decide (Some key = Some (field_name field))) items = true
    ↔ key ∈ field_name <$> items).
  { intros key. rewrite existsb_exists, list_elem_of_fmap. split.
    - intros (f & Hin & Hf). apply bool_decide_eq_true in Hf as [= ->].
      exists f. split; [done|]. by apply list_elem_of_In.
    - intros (f & -> & Hin). exists f. split; [by apply list_elem_of_In|].
      by apply bool_decide_eq_true_2. }
  rewrite length_fmap.
  split; [lia|].
  destruct items as [|first rest]; [done|].
  assert (Hfirst : field_name first ∈ field_name <$> first :: rest).
  { simpl. apply elem_of_cons. by left. }
  assert (Hnull : _activeKey = None →
    existsb (λ field, bool_decide (_activeKey = Some (field_name field)))
      (first :: rest) = false).
  { intros ->. apply not_true_iff_false. rewrite existsb_exists.
    intros (f & _ & Hf). by apply bool_decide_eq_true in Hf. }
  split; [|split; [|split; [|split]]].
  - destruct _activeKey as [key|].
    + destruct (existsb _ (first :: rest)) eqn:Hm.
      * exists key. split; [done|]. by apply Hmatched.
      * exists (field_name first). by split.
    + rewrite Hnull by done. exists (field_name first). by split.
  - intros (key & -> & Hin). apply Hmatched in Hin. by rewrite Hin.
  - intros Hnot. destruct _activeKey as [key|].
    + destruct (existsb _ (first :: rest)) eqn:Hm; [|reflexivity].
      apply Hmatched in Hm. by destruct (Hnot key eq_refl).
    + by rewrite Hnull.
  - intros Hhide. apply andb_true_iff in Hhide as [Hone _].
    by apply bool_decide_eq_true in Hone.
  - exists s. rewrite <- Hitems. repeat split; done.
Qed.

End RenderFacts.

(** * The further statements at samples *)

Lemma consistent_manager_with_x : consistent manager_with_x.
Proof.
  apply (register_consistent sample_semverSatisfies "1.2.0" _ None None empty_manager).
  - apply consistent_empty.
  - intros x _. by left.
Qed.

Lemma consistent_manager_with_failing_destroy : consistent manager_with_failing_destroy.
Proof.
  apply (register_consistent sample_semverSatisfies "1.2.0" _ None None empty_manager).
  - apply consistent_empty.
  - intros x _. by left.
Qed.

Lemma register_new_name_installs_witness :
  ∃ s',
    register sample_semverSatisfies "1.2.0"
      (sample_creator "y" [] None (Some HookResolves) None) None None manager_with_x
    = (Resolved tt, s')
    ∧ get "y" s' = Some (length (heap manager_with_x)) ∧ has "y" s' = true
    ∧ size s' = S (size manager_with_x)
    ∧ getAll s' = getAll manager_with_x ++ [length (heap manager_with_x)]
    ∧ (∀ y, y ≠ "y" → get y s' = get y manager_with_x)
    ∧ (∀ r, r < length (heap manager_with_x) → heap s' !! r = heap manager_with_x !! r)
    ∧ heap s' !! length (heap manager_with_x)
      = Some (if autoInit_requested None None
              then after_init (unit_of (sample_creator "y" [] None (Some HookResolves) None) "y")
              else unit_of (sample_creator "y" [] None (Some HookResolves) None) "y")
    ∧ events s'
      = events manager_with_x
        ++ (if autoInit_requested None None
            then init_trace (length (heap manager_with_x))
                   (unit_of (sample_creator "y" [] None (Some HookResolves) None) "y")
            else [])
    ∧ toProxy_get "y" s' = (Resolved (PVPluginProxy (length (heap manager_with_x))), s').
Proof.
  apply (register_new_name_installs sample_semverSatisfies "1.2.0"
           (sample_creator "y" [] None (Some HookResolves) None) None None
           manager_with_x "y");
    [reflexivity | discriminate | reflexivity | reflexivity | left; reflexivity].
Defined.

Lemma register_autoInit_failure_installs_nothing_witness :
  ∃ s',
    register sample_semverSatisfies "1.2.0"
      (sample_creator "y" [] None (Some HookRejects) None)
      (Some {| autoInit := Some true; override := None |}) None manager_with_x
    = (Rejected (HookExecutionError (length (heap manager_with_x))), s')
    ∧ getAll s' = getAll manager_with_x ∧ pluginsMap s' = pluginsMap manager_with_x
    ∧ get "y" s' = None ∧ size s' = size manager_with_x
    ∧ events s'
      = events manager_with_x
        ++ [EvCallInit (length (heap manager_with_x));
            EvHookInit (length (heap manager_with_x))]
    ∧ (∀ r, r < length (heap manager_with_x) → heap s' !! r = heap manager_with_x !! r).
Proof.
  apply (register_autoInit_failure_installs_nothing sample_semverSatisfies "1.2.0"
           (sample_creator "y" [] None (Some HookRejects) None)
           (Some {| autoInit := Some true; override := None |}) None
           manager_with_x "y");
    [reflexivity | discriminate | reflexivity | reflexivity | reflexivity | reflexivity].
Defined.

Lemma register_options_in_second_place_witness :
  register sample_semverSatisfies "1.2.0" (sample_creator "x" [] None None None)
    (Some {| autoInit := Some true; override := None |}) override_options manager_with_x
  = register sample_semverSatisfies "1.2.0" (sample_creator "x" [] None None None)
      None (Some {| autoInit := Some true; override := None |}) manager_with_x
  ∧ (derive_pluginName (sample_creator "x" [] None None None) = Some "x" →
     "x" ≠ "" → get "x" manager_with_x = Some 0 →
     Some {| autoInit := Some true; override := None |} ≫= override ≠ Some true →
     register sample_semverSatisfies "1.2.0" (sample_creator "x" [] None None None)
       (Some {| autoInit := Some true; override := None |}) override_options
       manager_with_x
     = (Rejected (DuplicatePluginError "x"), manager_with_x)).
Proof.
  apply (register_options_in_second_place sample_semverSatisfies "1.2.0"
           (sample_creator "x" [] None None None)
           (Some {| autoInit := Some true; override := None |}) override_options
           manager_with_x "x" 0).
  reflexivity.
Defined.

Lemma delete_unknown_name_witness :
  delete "y" manager_with_x = (Resolved false, manager_with_x).
Proof.
  apply (delete_unknown_name manager_with_x "y").
  intros r Hr. vm_compute in Hr. apply elem_of_cons in Hr as [->|Hr]; [|inversion Hr].
  vm_compute. discriminate.
Defined.

Lemma delete_registered_unit_witness :
  ∃ s',
    delete "x" manager_with_x = (Resolved true, s')
    ∧ has "x" s' = false ∧ get "x" s' = None
    ∧ S (size s') = size manager_with_x
    ∧ (∀ r', r' ∈ getAll s' ↔ r' ∈ getAll manager_with_x ∧ r' ≠ 0)
    ∧ (∀ m, m ≠ "x" → get m s' = get m manager_with_x)
    ∧ events s' = events manager_with_x ++ destroy_trace 0 unit_x
    ∧ heap s' !! 0 = Some (after_destroy unit_x)
    ∧ toProxy_get "x" s' = (Resolved (PVManagerMember "x"), s')
    ∧ consistent s'.
Proof.
  apply (delete_registered_unit manager_with_x "x" 0 unit_x);
    [apply consistent_manager_with_x | reflexivity | reflexivity | reflexivity].
Defined.

Lemma delete_failing_destroy_keeps_unit_witness :
  ∃ s',
    delete "a" manager_with_failing_destroy = (Rejected (HookExecutionError 0), s')
    ∧ getAll s' = getAll manager_with_failing_destroy
    ∧ pluginsMap s' = pluginsMap manager_with_failing_destroy
    ∧ get "a" s' = Some 0 ∧ size s' = size manager_with_failing_destroy
    ∧ heap s' = heap manager_with_failing_destroy
    ∧ events s' = events manager_with_failing_destroy
                  ++ destroy_trace 0 unit_failing_destroy.
Proof.
  apply (delete_failing_destroy_keeps_unit manager_with_failing_destroy "a" 0
           unit_failing_destroy);
    [apply consistent_manager_with_failing_destroy
    | reflexivity | reflexivity | reflexivity].
Defined.

Lemma only_init_replaces_preference_witness :
  getPluginPreference "x"
    (perform sample_semverSatisfies "1.2.0" Sequencify.sequencify OpDispose manager_with_x)
  = getPluginPreference "x" manager_with_x.
Proof.
  apply (only_init_replaces_preference sample_semverSatisfies "1.2.0"
           Sequencify.sequencify OpDispose manager_with_x "x").
  reflexivity.
Defined.

Lemma setDisabled_round_trip_witness :
  (setDisabled "x" true ;; setDisabled "x" false) manager_with_x
  = (Resolved tt, manager_with_x)
  ∧ toProxy_get "x" (setDisabled "x" true manager_with_x).2
    = (Resolved PVUndefined, (setDisabled "x" true manager_with_x).2)
  ∧ toProxy_get "x" (setDisabled "x" false (setDisabled "x" true manager_with_x).2).2
    = (Resolved (PVPluginProxy 0), manager_with_x).
Proof.
  apply (setDisabled_round_trip manager_with_x "x" 0 unit_x);
    [reflexivity | reflexivity | reflexivity].
Defined.

Lemma setDisabled_touches_one_unit_witness :
  ∃ s',
    setDisabled "x" true manager_with_x = (Resolved tt, s')
    ∧ getAll s' = getAll manager_with_x ∧ pluginsMap s' = pluginsMap manager_with_x
    ∧ events s' = events manager_with_x
    ∧ length (heap s') = length (heap manager_with_x)
    ∧ (∀ r, get "x" manager_with_x ≠ Some r → heap s' !! r = heap manager_with_x !! r)
    ∧ (∀ r p, get "x" manager_with_x = Some r → heap manager_with_x !! r = Some p →
         heap s' !! r = Some (set_disabled true p))
    ∧ (get "x" manager_with_x = None → s' = manager_with_x).
Proof.
  apply (setDisabled_touches_one_unit manager_with_x "x" true).
  unfold pluginsMap_allocated. refine (bool_decide_unpack _ _). vm_compute. exact I.
Defined.

Lemma dispose_tears_down_everything_witness :
  ∃ s' tr,
    dispose manager_with_x = (Resolved tt, s')
    ∧ events s' = events manager_with_x ++ tr
    ∧ destroy_calls tr = getAll manager_with_x
    ∧ Forall (teardown_event_of (getAll manager_with_x)) tr
    ∧ (∀ r, r ∈ getAll manager_with_x → destroyed_in (heap s') r)
    ∧ size s' = 0 ∧ getAll s' = []
    ∧ (∀ n, has n s' = false
            ∧ toProxy_get n s' = (Resolved (PVManagerMember n), s')).
Proof.
  apply (dispose_tears_down_everything manager_with_x).
  repeat constructor. exists unit_x. split; reflexivity.
Defined.

Lemma reachable_in_sequence_registry_agrees_witness :
  size manager_after_sample_calls = length (getAll manager_after_sample_calls)
  ∧ NoDup (getAll manager_after_sample_calls)
  ∧ plugins_allocated manager_after_sample_calls
  ∧ pluginsMap_allocated manager_after_sample_calls
  ∧ (∀ n r, get n manager_after_sample_calls = Some r
            ↔ r ∈ getAll manager_after_sample_calls
              ∧ name <$> heap manager_after_sample_calls !! r = Some n)
  ∧ (∀ r1 r2 n, r1 ∈ getAll manager_after_sample_calls →
       r2 ∈ getAll manager_after_sample_calls →
       name <$> heap manager_after_sample_calls !! r1 = Some n →
       name <$> heap manager_after_sample_calls !! r2 = Some n → r1 = r2).
Proof.
  apply (reachable_in_sequence_registry_agrees sample_semverSatisfies "1.2.0"
           Sequencify.sequencify manager_after_sample_calls).
  unfold manager_after_sample_calls, sample_calls. cbn [foldl].
  repeat
    (apply in_sequence_step;
     [| first
          [ exact (λ H : False, H)
          | intros (x & Hx & Hsome & Hov); vm_compute in Hx;
            injection Hx as <-; vm_compute in Hsome, Hov;
            first [ discriminate Hov | destruct Hsome as [? Hget]; discriminate Hget ] ] ]).
  apply in_sequence_new.
Defined.


Lemma tabs_active_key_is_a_tab_witness :
  (1 ≤ length ["props"; "styles"] ≤ 5)%nat
  ∧ (∃ key, Some "styles" = Some key ∧ key ∈ ["props"; "styles"])
  ∧ ((∃ key, Some "styles" = Some key ∧ key ∈ ["props"; "styles"]) →
     Some "styles" = Some "styles")
  ∧ ((∀ key, Some "styles" = Some key → key ∉ ["props"; "styles"]) →
     Some "styles" = head ["props"; "styles"])
  ∧ (false = true → length ["props"; "styles"] = 1)
  ∧ (∃ s, Some sample_settings = Some s
          ∧ ["props"; "styles"]
            = SettingsPrimaryPane.field_name <$> SettingsPrimaryPane.settings_items s
          ∧ Forall (λ item, SettingsPrimaryPane.isSettingField item = true
                            ∧ SettingsPrimaryPane.isGroup item = true)
                   (SettingsPrimaryPane.settings_items s)
          ∧ SettingsPrimaryPane.isSameComponent s = true).
Proof.
  apply (tabs_active_key_is_a_tab false false (Some "styles") (Some sample_settings)
           ["props"; "styles"] (Some "styles") false).
  reflexivity.
Defined.

Lemma register_refusals_change_nothing_witness :
  (register sample_semverSatisfies "1.2.0"
     (sample_creator "x" [] None None None) None None manager_with_x).2
  = manager_with_x.
Proof.
  apply (register_refusals_change_nothing sample_semverSatisfies "1.2.0"
           (sample_creator "x" [] None None None) None None
           manager_with_x _ (DuplicatePluginError "x")).
  - unfold pluginsMap_allocated. refine (bool_decide_unpack _ _). vm_compute. exact I.
  - reflexivity.
  - right. left. by exists "x".
Defined.
